(** * pluto_beamforming: sweep engine and half-power beam-width estimate

    A shallow embedding of [src/pluto_beamforming.py].  The script sweeps the
    phase offset between the two transmit channels of a Pluto radio, records
    the received amplitude for every offset, and at the end of the sweep marks
    the peak and the -3 dB width of the recorded curve.

    Numbers.  Python floats are read as exact numbers: rationals ([Q]) for
    everything the script computes with [+ - * /] and comparisons, so that the
    model runs; reals ([R]) only where [np.arcsin] and [np.pi] enter.  Rounding,
    [nan] and [inf] of binary64 are outside that model, except for the [nan]
    that [np.arcsin] returns outside [-1, 1], which is kept as [None].  The
    phases are exact in the script itself: [cur_phase] and [phase_step] are
    Python integers.  Where rounding decides the outcome -- the threshold
    [peak_db - 3] and the interpolation of the left bound -- the estimator is
    modelled a second time over binary64 ([Hpbw64]).

    Control.  [update] and [start_sweep] are callbacks of Qt single-shot
    timers; the model keeps the queue of pending timers in the state and an
    event loop [run] that fires them.  Python exceptions are results
    [Raise e]; the state reached when the exception is raised is kept, and
    the event loop goes on, as nothing in the script catches anything. *)

From Stdlib Require Import QArith Qround ZArith List Bool Lia Reals.
From Stdlib Require Lqa Lra String Floats.
From Stdlib Require Import Qreals.
Import ListNotations.

Set Implicit Arguments.

(* ================================================================== *)
(** * Part I: definitions *)
(* ================================================================== *)

(** ** Python exceptions *)

Inductive PyExc : Type :=
| RadioError (code : nat)   (* raised by [sdr_tx.tx], [sdr_rx.rx], ... *)
| IndexError                (* sequence index out of range *)
| ValueError.               (* e.g. [np.argmax] of an empty array *)

Inductive Exc (A : Type) : Type :=
| Ok (a : A)
| Raise (e : PyExc).
Arguments Ok {A} a.
Arguments Raise {A} e.

Definition ebind {A B} (m : Exc A) (k : A -> Exc B) : Exc B :=
  match m with
  | Ok a => k a
  | Raise e => Raise e
  end.

Declare Scope exc_scope.
Delimit Scope exc_scope with exc.
Notation "x <- m ;; k" := (ebind m (fun x => k))
  (at level 61, m at next level, right associativity) : exc_scope.

(** ** Rational helpers *)

Module Num.

Definition Qltb (a b : Q) : bool := negb (Qle_bool b a).

Definition Qsum (l : list Q) : Q := fold_left Qplus l 0%Q.

(** [np.min] of a non-empty array ([dflt] stands for the empty case, which
    the caller excludes). *)
Definition Qminimum (dflt : Q) (l : list Q) : Q :=
  match l with
  | [] => dflt
  | x :: l' => fold_left (fun m y => if Qltb y m then y else m) l' x
  end.

(** Complex numbers with rational parts. *)
Definition C : Type := (Q * Q)%type.
Definition Czero : C := (0%Q, 0%Q).
Definition Cadd (z w : C) : C := (fst z + fst w, snd z + snd w)%Q.
Definition Csub (z w : C) : C := (fst z - fst w, snd z - snd w)%Q.
Definition Cscale (z : C) (q : Q) : C := (fst z * q, snd z * q)%Q.
Definition Cdivq (z : C) (q : Q) : C := (fst z / q, snd z / q)%Q.
Definition Csum (l : list C) : C := fold_left Cadd l Czero.

Definition Ceqb (z w : C) : bool :=
  Qeq_bool (fst z) (fst w) && Qeq_bool (snd z) (snd w).

(** Two blocks of samples hold the same numbers. *)
Fixpoint same_samples (l1 l2 : list C) : bool :=
  match l1, l2 with
  | [], [] => true
  | z :: l1', w :: l2' => Ceqb z w && same_samples l1' l2'
  | _, _ => false
  end.

(** [np.mean] of a complex array. *)
Definition Cmean (l : list C) : C :=
  Cdivq (Csum l) (inject_Z (Z.of_nat (length l))).

End Num.

(** ** The NumPy functions the estimator uses *)

Module Np.
Import Num.
Local Open Scope Q_scope.

(** Sequence indexing [l[i]] with a non-negative index. *)
Definition get {A} (l : list A) (i : nat) : Exc A :=
  match nth_error l i with
  | Some x => Ok x
  | None => Raise IndexError
  end.

(** [l[-1]]. *)
Definition get_last {A} (l : list A) : Exc A :=
  match l with
  | [] => Raise IndexError
  | _ => get l (length l - 1)
  end.

(** [np.argmax]: index of the first occurrence of the maximum. *)
Fixpoint argmax_from (best_i : nat) (best : Q) (i : nat) (l : list Q) : nat :=
  match l with
  | [] => best_i
  | x :: l' =>
      if Qltb best x then argmax_from i x (S i) l'
      else argmax_from best_i best (S i) l'
  end.

Definition argmax (l : list Q) : Exc nat :=
  match l with
  | [] => Raise ValueError
  | x :: l' => Ok (argmax_from 0 x 1 l')
  end.

(** [np.interp(x, [x0, x1], [f0, f1])] on a two-point table, which is how
    both call sites use it.  This follows NumPy's [arr_interp]: the table
    is searched as if [x0 <= x1] held (nothing checks it); a key above the
    last abscissa gives the last ordinate, a key below the first abscissa
    the first ordinate, a key on the last abscissa the last ordinate, a key
    on the first abscissa the first ordinate, and only then the chord
    [slope * (x - x0) + f0] is evaluated. *)
Definition interp2 (x x0 x1 f0 f1 : Q) : Q :=
  if Qltb x1 x then f1
  else if Qltb x x0 then f0
  else if Qle_bool x1 x then f1
  else if Qeq_bool x0 x then f0
  else (f1 - f0) / (x1 - x0) * (x - x0) + f0.

(** Strictly increasing sequence, as a test. *)
Fixpoint increasing (l : list Q) : bool :=
  match l with
  | [] => true
  | x :: l' =>
      match l' with
      | [] => true
      | y :: _ => Qltb x y && increasing l'
      end
  end.

End Np.

(** ** Lines 124-142: peak and -3 dB crossings *)

(** Over the rationals: the comparisons are those of the doubles, while the
    threshold and the interpolated values are exact where the script's are
    rounded.  Statements that depend on the rounding are made on [Hpbw64]
    below. *)
Module Hpbw.
Import Num Np.
Local Open Scope Q_scope.
Local Open Scope exc_scope.

(** The phase-domain part of the summary. *)
Record Crossings : Type := mkCrossings {
  idx_max : nat;
  peak_db : Q;
  peak_phi : Q;
  half_db : Q;
  left : Q;
  right : Q;
  hpbw_phase : Q
}.

(** [for i in range(idx_max - 1, -1, -1)]: [n] is one more than the next
    index to visit; [dflt] is the value [left] has when no index breaks. *)
Fixpoint scan_left (phases amps : list Q) (half : Q) (n : nat) (dflt : Q)
  : Exc Q :=
  match n with
  | O => Ok dflt
  | S i =>
      a_i <- get amps i ;;
      if Qltb a_i half then
        a_i1 <- get amps (i + 1) ;;
        p_i <- get phases i ;;
        p_i1 <- get phases (i + 1) ;;
        Ok (interp2 half a_i a_i1 p_i p_i1)
      else scan_left phases amps half i dflt
  end.

(** [for i in range(idx_max + 1, len(amps))]: [i] is the next index to
    visit, [count] the number of indices left. *)
Fixpoint scan_right (phases amps : list Q) (half : Q) (count i : nat)
  (dflt : Q) : Exc Q :=
  match count with
  | O => Ok dflt
  | S c =>
      a_i <- get amps i ;;
      if Qltb a_i half then
        a_im1 <- get amps (i - 1) ;;
        p_im1 <- get phases (i - 1) ;;
        p_i <- get phases i ;;
        Ok (interp2 half a_im1 a_i p_im1 p_i)
      else scan_right phases amps half c (S i) dflt
  end.

(** Lines 119-142.  [None] is the early [return] of line 122. *)
Definition crossings (phases amps : list Q) : Exc (option Crossings) :=
  if (length amps <? 5)%nat then Ok None
  else
    im <- argmax amps ;;
    pk_db <- get amps im ;;
    pk_phi <- get phases im ;;
    let half := pk_db - 3 in
    l0 <- get phases 0 ;;
    l <- scan_left phases amps half im l0 ;;
    r0 <- get_last phases ;;
    r <- scan_right phases amps half (length amps - (im + 1)) (im + 1) r0 ;;
    Ok (Some (mkCrossings im pk_db pk_phi half l r (r - l))).

End Hpbw.

(** ** Lines 124-135 in binary64 *)

(** The amplitudes are doubles, and both [half_db = peak_db - 3] and the
    interpolation inside [np.interp] round.  This module is the peak search
    and the left scan over the primitive floats (IEEE 754 binary64, round to
    nearest even), each operation rounded on its own: the product and the
    sum of the chord are not fused.  [ph_hist] holds
    Python integers, which [np.interp] converts to doubles; the phases are
    taken here as the doubles they convert to. *)
Module Hpbw64.
Import Np PrimFloat.
Local Open Scope float_scope.
Local Open Scope exc_scope.

(** [np.argmax] on doubles: the scan keeps the first element that is not
    [<=] the best so far; a [nan] is such an element, and ends the scan. *)
Fixpoint argmax_from (best_i : nat) (best : float) (i : nat) (l : list float)
  : nat :=
  match l with
  | [] => best_i
  | x :: l' =>
      if x <=? best then argmax_from best_i best (S i) l'
      else if is_nan x then i
      else argmax_from i x (S i) l'
  end.

Definition argmax (l : list float) : Exc nat :=
  match l with
  | [] => Raise ValueError
  | x :: l' => Ok (if is_nan x then 0%nat else argmax_from 0 x 1 l')
  end.

(** The chord through [(x0, f0)] and [(x1, f1)] at [x], as [arr_interp]
    evaluates it: from the left end, and from the right end when that gave
    [nan]. *)
Definition chord (x x0 x1 f0 f1 : float) : float :=
  let slope := (f1 - f0) / (x1 - x0) in
  let res := slope * (x - x0) + f0 in
  if is_nan res then
    let res' := slope * (x - x1) + f1 in
    if is_nan res' && (f0 =? f1) then f0 else res'
  else res.

(** [np.interp(x, [x0, x1], [f0, f1])], after NumPy's [arr_interp] and its
    [binary_search_with_guess] on a table of two points. *)
Definition interp2 (x x0 x1 f0 f1 : float) : float :=
  if is_nan x then x
  else if x1 <? x then f1
  else if x <? x0 then f0
  else if x1 <=? x then f1
  else if x0 =? x then f0
  else chord x x0 x1 f0 f1.

Record LeftBound : Type := mkLeftBound {
  idx_max : nat;
  peak_db : float;
  peak_phi : float;
  half_db : float;
  left : float
}.

(** [for i in range(idx_max - 1, -1, -1)], as [Hpbw.scan_left]. *)
Fixpoint scan_left (phases amps : list float) (half : float) (n : nat)
  (dflt : float) : Exc float :=
  match n with
  | O => Ok dflt
  | S i =>
      a_i <- get amps i ;;
      if a_i <? half then
        a_i1 <- get amps (i + 1) ;;
        p_i <- get phases i ;;
        p_i1 <- get phases (i + 1) ;;
        Ok (interp2 half a_i a_i1 p_i p_i1)
      else scan_left phases amps half i dflt
  end.

(** Lines 119-135. *)
Definition left_bound (phases amps : list float) : Exc (option LeftBound) :=
  if (length amps <? 5)%nat then Ok None
  else
    im <- argmax amps ;;
    pk_db <- get amps im ;;
    pk_phi <- get phases im ;;
    let half := pk_db - 3 in
    l0 <- get phases 0 ;;
    l <- scan_left phases amps half im l0 ;;
    Ok (Some (mkLeftBound im pk_db pk_phi half l)).

(** The rational a finite double stands for. *)
Definition to_Q (f : float) : option Q :=
  match FloatOps.Prim2SF f with
  | SpecFloat.S754_zero _ => Some 0%Q
  | SpecFloat.S754_finite s m e =>
      Some ((if s then -1 else 1) * (inject_Z (Zpos m) * Qpower 2 e))%Q
  | _ => None
  end.


(** A curve whose flanks lie, in decimal, exactly three below the peak; the
    literals are the doubles nearest 0.3 and -2.7. *)
Definition level_phases : list float := [-10; -5; 0; 5; 10].
Definition level_amps : list float :=
  [-0x1.599999999999ap+1; -0x1.599999999999ap+1; 0x1.3333333333333p-2;
   -0x1.599999999999ap+1; -0x1.599999999999ap+1].

End Hpbw64.

(** ** Lines 209 and 214-215 with a step that is a double *)

Module Sweep64.
Import PrimFloat.
Local Open Scope float_scope.

(** The phases a sweep records when [phase_step] is a double, so that
    [cur_phase += phase_step] is a binary64 addition: [cur] is recorded,
    and the sweep goes on unless the next phase is beyond [stop]. *)
Fixpoint phases (fuel : nat) (cur step stop : float) : list float :=
  match fuel with
  | O => []
  | S fuel' =>
      cur :: (if stop <? cur + step then []
              else phases fuel' (cur + step) step stop)
  end.

(** The double nearest 7.2. *)
Definition step_7_2 : float := 0x1.ccccccccccccdp+2.

End Sweep64.

(** ** Lines 144-149: phase offset to spatial angle *)

Module BeamGeometry.
Local Open Scope R_scope.

Definition deg2rad (x : R) : R := x * (PI / 180).
Definition degrees (x : R) : R := x * (180 / PI).

(** [np.clip(x, lo, hi)] is [minimum(maximum(x, lo), hi)]. *)
Definition clip (x lo hi : R) : R := Rmin (Rmax x lo) hi.

(** [np.arcsin]: [nan] (here [None]) outside [-1, 1]. *)
Definition arcsin (s : R) : option R :=
  if Rle_dec (-1) s then
    if Rle_dec s 1 then Some (asin s) else None
  else None.

(** [np.clip((np.deg2rad(phase) * lam) / (2 * np.pi * d), -1, 1)] *)
Definition spatial_sine (phase lam d : R) : R :=
  clip ((deg2rad phase * lam) / (2 * PI * d)) (-1) 1.

(** [np.degrees(np.arcsin(s))] of the clipped sine. *)
Definition phase_to_angle (phase lam d : R) : option R :=
  option_map degrees (arcsin (spatial_sine phase lam d)).

(** [theta_r - theta_l]; [nan] if either side is. *)
Definition angle_diff (theta_r theta_l : option R) : option R :=
  match theta_r, theta_l with
  | Some r, Some l => Some (r - l)
  | _, _ => None
  end.

End BeamGeometry.

(** ** User parameters (lines 22-30, 60-64) *)

Record Params : Type := mkParams {
  samp_rate : Q;
  f_tone : Q;
  N : nat;
  phase_step : Q;
  update_interval : Z;
  integration_win : nat;
  PAD_DB : Q;
  spacing_ratio : Q;
  c_light : Q;
  fc : Q;
  (** The script writes the two sweep limits as the literals [-180]
      (lines 106 and 227) and [180] (line 215). *)
  phase_start : Q;
  phase_stop : Q
}.

Definition lam (p : Params) : Q := c_light p / fc p.
Definition d (p : Params) : Q := spacing_ratio p * lam p.

(** The values the script runs with. *)
Definition script_params : Params :=
  {| samp_rate := 2000000; f_tone := 500000; N := 4096; phase_step := 2;
     update_interval := 40; integration_win := 10; PAD_DB := 1;
     spacing_ratio := 1 # 2; c_light := 300000000; fc := 2400000000;
     phase_start := -180; phase_stop := 180 |}.

(** ** [annotate_results], lines 117-175 *)

(** What the amplitude plot shows once a sweep is annotated; each handle of
    the script ([beam_line], ..., [max_label]) holds one of these or [None]. *)
Inductive Item : Type :=
| PlotLine (xs ys : list Q)
| BeamLabel (hpbw_phase : Q) (hpbw_theta : option R) (pos : Q * Q)
| Marker (x y : Q)
| MaxLabel (phi db : Q) (pos : Q * Q).

Record Graphics : Type := mkGraphics {
  beam_line : option Item;
  beam_label : option Item;
  max_line : option Item;
  max_marker : option Item;
  max_label : option Item
}.

Definition no_graphics : Graphics := mkGraphics None None None None None.

Module Annotate.
Import Num Np.
Local Open Scope exc_scope.

(** Everything lines 124-149 compute. *)
Record Summary : Type := mkSummary {
  cross : Hpbw.Crossings;
  theta_l : option R;
  theta_r : option R;
  hpbw_theta : option R
}.

Definition spatial (p : Params) (cr : Hpbw.Crossings) : Summary :=
  let tl := BeamGeometry.phase_to_angle (Q2R (Hpbw.left cr))
              (Q2R (lam p)) (Q2R (d p)) in
  let tr := BeamGeometry.phase_to_angle (Q2R (Hpbw.right cr))
              (Q2R (lam p)) (Q2R (d p)) in
  mkSummary cr tl tr (BeamGeometry.angle_diff tr tl).

(** Lines 119-149: [None] when fewer than five samples are recorded. *)
Definition estimate (p : Params) (phases amps : list Q)
  : Exc (option Summary) :=
  r <- Hpbw.crossings phases amps ;;
  Ok (option_map (spatial p) r).

(** Lines 151-175: the old items are removed and the five handles are
    assigned anew. *)
Definition draw (p : Params) (s : Summary) (amps : list Q) : Graphics :=
  let cr := cross s in
  let left := Hpbw.left cr in
  let right := Hpbw.right cr in
  let half_db := Hpbw.half_db cr in
  let peak_phi := Hpbw.peak_phi cr in
  let peak_db := Hpbw.peak_db cr in
  let min_db := Qminimum 0 amps in
  {| beam_line := Some (PlotLine [left; right] [half_db; half_db]);
     beam_label := Some (BeamLabel (Hpbw.hpbw_phase cr) (hpbw_theta s)
                           (left, half_db));
     max_line := Some (PlotLine [peak_phi; peak_phi] [min_db; peak_db]);
     max_marker := Some (Marker peak_phi peak_db);
     max_label := Some (MaxLabel peak_phi peak_db
                          (peak_phi + 9 * PAD_DB p,
                           peak_db - 3 * PAD_DB p)%Q) |}.

End Annotate.

(** ** Lines 193-206: spectrum of one capture *)

(** The NumPy functions of the spectral analysis that rational arithmetic
    cannot express; the sweep lemmas hold for any choice of them. *)
Class NumPy : Type := {
  np_hanning : nat -> list Q;
  np_fft : list Num.C -> list Num.C;
  np_abs : Num.C -> Q;
  np_fftfreq : nat -> Q -> list Q;
  np_sqrt : Q -> Q;
  np_log10 : Q -> Q
}.

Module Spectral.
Import Num Np.
Local Open Scope exc_scope.

(** [np.fft.fftshift]: rotate right by [len // 2]. *)
Definition fftshift {A} (l : list A) : list A :=
  let k := (length l - length l / 2)%nat in
  skipn k l ++ firstn k l.

(** The slice [l[a:b]]. *)
Definition slice {A} (l : list A) (a b : nat) : list A :=
  firstn (b - a) (skipn a l).

Section WithNumPy.
Context {np : NumPy}.
Variable p : Params.

(** Returns [(pk_f, pwr_lin)]. *)
Definition spectrum (samples : list C) : Exc (Q * Q) :=
  let win_fn := np_hanning (length samples) in
  let fftd := map (fun z => Cdivq z (Qsum win_fn))
                  (np_fft (map (fun zw => Cscale (fst zw) (snd zw))
                               (combine samples win_fn))) in
  let mag := map np_abs (fftshift fftd) in
  let freq := fftshift (np_fftfreq (length samples) (1 / samp_rate p)) in
  idx_pk <- argmax mag ;;
  pk_f <- get freq idx_pk ;;
  let win := integration_win p in
  let pwr_lin :=
    np_sqrt (Qsum (map (fun m => m * m)%Q
                       (slice mag (Nat.max 0 (idx_pk - win))
                              (idx_pk + win + 1)))) in
  Ok (pk_f, pwr_lin).
End WithNumPy.

End Spectral.

(** ** The radio *)

(** The two devices ([sdr_tx], [sdr_rx]) seen as one port.  [tx] receives the
    phase offset in degrees: the script always sends [base_waveform] on
    channel 0 and [base_waveform * exp(1j * deg2rad(phase))] on channel 1.
    Every operation may raise and may change the state of the device. *)
Class RadioPort (Radio : Type) : Type := {
  tx_destroy_buffer : Radio -> Exc unit * Radio;
  tx : Q -> Radio -> Exc unit * Radio;
  rx : Radio -> Exc (list Num.C) * Radio
}.

(** What the script asked of the radio, oldest first. *)
Inductive RadioCmd : Type :=
| CmdTxDestroy
| CmdTx (phase : Q)
| CmdRx.

(** ** Sweep state (lines 105-112) and the Qt timers *)

Inductive Mode : Type := one_shot_mode | continuous_mode.

Inductive Callback : Type := CbUpdate | CbStartSweep.

Record State (Radio : Type) : Type := mkState {
  radio : Radio;
  cur_phase : Q;
  ph_hist : list Q;
  amp_hist : list Q;
  mode : Mode;
  gfx : Graphics;
  (** pending [QTimer.singleShot(delay, callback)], in firing order *)
  timers : list (Z * Callback);
  (** trace of the calls made on the radio; nothing reads it *)
  radio_log : list RadioCmd
}.
Arguments cur_phase {Radio} s.
Arguments mode {Radio} s.

Module Sweep.
Import Num Np.

Section Machine.
Context {Radio : Type} {port : RadioPort Radio} {np : NumPy}.
Variable p : Params.

Local Abbreviation St := (State Radio).

(** Computations that read and write the sweep state and may raise. *)
Definition M (A : Type) : Type := St -> Exc A * St.

Definition ret {A} (a : A) : M A := fun st => (Ok a, st).

Definition bind {A B} (m : M A) (k : A -> M B) : M B :=
  fun st =>
    match m st with
    | (Ok a, st') => k a st'
    | (Raise e, st') => (Raise e, st')
    end.

Definition lift {A} (r : Exc A) : M A := fun st => (r, st).

(** Reading a variable of the enclosing scope, and assigning to some. *)
Definition gets {A} (f : St -> A) : M A := fun st => (Ok (f st), st).
Definition modify (f : St -> St) : M unit := fun st => (Ok tt, f st).

Local Notation "x <- m ;; k" := (bind m (fun x => k))
  (at level 61, m at next level, right associativity).
Local Notation "m ;; k" := (bind m (fun _ => k))
  (at level 61, right associativity).

(** *** Field updates *)

Definition set_radio (r : Radio) (log : list RadioCmd) (st : St) : St :=
  mkState r (cur_phase st) (ph_hist st) (amp_hist st) (mode st) (gfx st)
          (timers st) log.
Definition set_cur_phase (x : Q) (st : St) : St :=
  mkState (radio st) x (ph_hist st) (amp_hist st) (mode st) (gfx st)
          (timers st) (radio_log st).
Definition set_hist (ph amp : list Q) (st : St) : St :=
  mkState (radio st) (cur_phase st) ph amp (mode st) (gfx st)
          (timers st) (radio_log st).
Definition set_mode (m : Mode) (st : St) : St :=
  mkState (radio st) (cur_phase st) (ph_hist st) (amp_hist st) m (gfx st)
          (timers st) (radio_log st).
Definition set_gfx (g : Graphics) (st : St) : St :=
  mkState (radio st) (cur_phase st) (ph_hist st) (amp_hist st) (mode st) g
          (timers st) (radio_log st).
Definition set_timers (t : list (Z * Callback)) (st : St) : St :=
  mkState (radio st) (cur_phase st) (ph_hist st) (amp_hist st) (mode st)
          (gfx st) t (radio_log st).

(** *** Calls on the radio *)

Definition call {A} (cmd : RadioCmd) (op : Radio -> Exc A * Radio) : M A :=
  fun st =>
    let (r, rd) := op (radio st) in
    (r, set_radio rd (radio_log st ++ [cmd]) st).

Definition sdr_tx_destroy_buffer : M unit :=
  call CmdTxDestroy tx_destroy_buffer.
Definition sdr_tx (phase : Q) : M unit := call (CmdTx phase) (tx phase).
Definition sdr_rx : M (list C) := call CmdRx rx.

(** [for _ in range(n): sdr_rx.rx()] *)
Fixpoint flush (n : nat) : M unit :=
  match n with
  | O => ret tt
  | S n' => sdr_rx ;; flush n'
  end.

(** Lines 183-191: transmit with the phase offset, flush, read.  In
    [sdr_rx.rx() - np.mean(sdr_rx.rx())] the left operand is evaluated
    first. *)
Definition acquire (phase : Q) : M (list C) :=
  sdr_tx_destroy_buffer ;;
  sdr_tx phase ;;
  flush 20 ;;
  a <- sdr_rx ;;
  b <- sdr_rx ;;
  let samples := map (fun z => Csub z (Cmean b)) a in
  ret (map (fun z => Cdivq z (2 ^ 11)) samples).

(** The device after [n] reads, and after the calls of one step that offers
    [phase] to [tx]: lines 183-190 call [tx_destroy_buffer], [tx] once, and
    [rx] 22 times. *)
Fixpoint rx_times (n : nat) (r : Radio) : Radio :=
  match n with
  | O => r
  | S n' => rx_times n' (snd (rx r))
  end.

Definition radio_after_step (phase : Q) (r : Radio) : Radio :=
  rx_times 22 (snd (tx phase (snd (tx_destroy_buffer r)))).


(** *** Timers *)

(** [QTimer.singleShot(delay, cb)].  A new timer goes behind those pending,
    which is the order of expiry whenever its delay is not shorter than what
    is left of theirs: so it is for the steps of a sweep, which all wait
    [update_interval], and for presses of a button with no step waiting. *)
Definition singleShot (delay : Z) (cb : Callback) : M unit :=
  modify (fun st => set_timers (timers st ++ [(delay, cb)]) st).

(** *** [annotate_results] *)

Definition annotate_results : M unit :=
  fun st =>
    match Annotate.estimate p (ph_hist st) (amp_hist st) with
    | Raise e => (Raise e, st)
    | Ok None => (Ok tt, st)
    | Ok (Some s) => (Ok tt, set_gfx (Annotate.draw p s (amp_hist st)) st)
    end.

(** *** [update], lines 180-221 *)

(** [ph_hist.append(phase); amp_hist.append(amp)] *)
Definition record_point (phase amp : Q) : M unit :=
  modify (fun st => set_hist (ph_hist st ++ [phase]) (amp_hist st ++ [amp]) st).

(** The redrawing of the two plots and of the peak read-out (lines 199,
    204-206, 211) does not touch the sweep state and is left out. *)
Definition update : M unit :=
  phase <- gets cur_phase ;;
  samples <- acquire phase ;;
  r <- lift (Spectral.spectrum p samples) ;;
  let pwr_lin := snd r in
  phase <- gets cur_phase ;;
  record_point phase (20 * np_log10 pwr_lin) ;;
  modify (fun st => set_cur_phase (cur_phase st + phase_step p) st) ;;
  phase <- gets cur_phase ;;
  if Qltb (phase_stop p) phase then
    annotate_results ;;
    m <- gets mode ;;
    match m with
    | continuous_mode => singleShot (update_interval p) CbStartSweep
    | one_shot_mode => ret tt
    end
  else singleShot (update_interval p) CbUpdate.

(** *** Control helpers, lines 224-242 *)

Definition start_sweep : M unit :=
  modify (set_cur_phase (phase_start p)) ;;
  modify (set_hist [] []) ;;
  modify (set_gfx no_graphics) ;;
  singleShot 0 CbUpdate.

Definition one_shot : M unit :=
  modify (set_mode one_shot_mode) ;;
  start_sweep.

Definition continuous : M unit :=
  modify (set_mode continuous_mode) ;;
  start_sweep.

(** Lines 105-112. *)
Definition init (r : Radio) : St :=
  mkState r (phase_start p) [] [] one_shot_mode no_graphics [] [].

(** *** The event loop ([app.exec()]) *)

(** The first pending timer fires. *)
Definition fire : M unit :=
  fun st =>
    match timers st with
    | [] => (Ok tt, st)
    | (_, cb) :: rest =>
        match cb with
        | CbUpdate => update (set_timers rest st)
        | CbStartSweep => start_sweep (set_timers rest st)
        end
    end.

(** Timers fire until none is pending or [fuel] events were handled.
    Nothing in the script catches an exception ([app.exec()] at line 247 is
    bare): an exception leaves the callback that raised it, and the loop
    goes on with the timers still pending.  The result tells whether some
    callback raised, and keeps the first exception. *)
Fixpoint run (fuel : nat) : M unit :=
  match fuel with
  | O => ret tt
  | S fuel' =>
      fun st =>
        match timers st with
        | [] => (Ok tt, st)
        | _ =>
            match fire st with
            | (Ok _, st') => run fuel' st'
            | (Raise e, st') => (Raise e, snd (run fuel' st'))
            end
        end
  end.

(** Button clicks and timer expiries, as the event loop dispatches them. *)
Inductive Event : Type := ClickOneShot | ClickContinuous | TimerFires.

Definition handle (ev : Event) : M unit :=
  match ev with
  | ClickOneShot => one_shot
  | ClickContinuous => continuous
  | TimerFires => fire
  end.

(** The states the program can be in: the initial one, and the state left by
    any handler, whether it returned or raised. *)
Inductive reachable : St -> Prop :=
| reach_init (r : Radio) : reachable (init r)
| reach_event (st : St) (ev : Event) :
    reachable st -> reachable (snd (handle ev st)).

(** A one-shot sweep started with the button, then [fuel] timer events. *)
Definition sweep_once (fuel : nat) (st : St) : Exc unit * St :=
  run fuel (snd (one_shot st)).

(** *** Vocabulary of the sweep lemmas *)

(** The phase after [k] increments of [cur_phase += phase_step]. *)
Fixpoint phase_at (k : nat) : Q :=
  match k with
  | O => phase_start p
  | S k' => (phase_at k' + phase_step p)%Q
  end.

(** The phases of the first [n] steps of a sweep. *)
Definition sweep_phases (n : nat) : list Q := map phase_at (seq 0 n).

(** Everything but the radio and the trace of its calls is the same. *)
Definition same_sweep (st st' : St) : Prop :=
  cur_phase st' = cur_phase st /\ ph_hist st' = ph_hist st /\
  amp_hist st' = amp_hist st /\ mode st' = mode st /\ gfx st' = gfx st /\
  timers st' = timers st.

(** A computation that touches only the radio, and issues [cmds] when it
    returns. *)
Definition radio_only {A} (m : M A) (cmds : list RadioCmd) : Prop :=
  forall st,
    same_sweep st (snd (m st)) /\
    (forall a, fst (m st) = Ok a ->
       radio_log (snd (m st)) = radio_log st ++ cmds).

(** The calls on the radio of one completed step. *)
Definition step_commands (phase : Q) : list RadioCmd :=
  CmdTxDestroy :: CmdTx phase :: repeat CmdRx 22.

(** The timers a completed step leaves behind those pending before it. *)
Definition scheduled_after (m : Mode) (next_phase : Q) : list (Z * Callback) :=
  if Qltb (phase_stop p) next_phase then
    match m with
    | continuous_mode => [(update_interval p, CbStartSweep)]
    | one_shot_mode => []
    end
  else [(update_interval p, CbUpdate)].

(** A sweep under way with [k] points recorded. *)
Definition sweeping (k : nat) (st : St) : Prop :=
  (exists delay, timers st = [(delay, CbUpdate)]) /\
  ph_hist st = sweep_phases k /\ length (amp_hist st) = k /\
  cur_phase st = phase_at k.


(** A finished sweep waiting for its automatic restart. *)
Definition restarting (k : nat) (st : St) : Prop :=
  (exists delay, timers st = [(delay, CbStartSweep)]) /\
  ph_hist st = sweep_phases k /\ length (amp_hist st) = k.

End Machine.
End Sweep.



(** Number of receive calls in a trace. *)
Definition rx_count (log : list RadioCmd) : nat :=
  length (filter (fun c => match c with CmdRx => true | _ => false end) log).

(** ** A scripted radio, for running the model *)

(** The captures the receiver will deliver, in order ([Raise] for a failed
    read); reading past the end of the script times out.  Transmission
    always succeeds. *)
Definition Scripted : Type := list (Exc (list Num.C)).

#[export] Instance scripted_port : RadioPort Scripted := {|
  tx_destroy_buffer := fun r => (Ok tt, r);
  tx := fun _ r => (Ok tt, r);
  rx := fun r =>
    match r with
    | [] => (Raise (RadioError 110), [])
    | c :: r' => (c, r')
    end
|}.

(** Stand-ins for the NumPy functions, enough to run the control flow: the
    spectrum is the capture itself, magnitudes are squared moduli and
    amplitudes stay linear. *)
Definition plain_numpy : NumPy := {|
  np_hanning := fun n => repeat 1%Q n;
  np_fft := fun l => l;
  np_abs := fun z => (fst z * fst z + snd z * snd z)%Q;
  np_fftfreq := fun n _ => map (fun k => inject_Z (Z.of_nat k)) (seq 0 n);
  np_sqrt := fun x => x;
  np_log10 := fun x => x
|}.

(** What section 4.4 of the specification asks of a step: remove the mean of
    the capture itself, then divide by full scale. *)
Definition dc_removed_normalised (capture : list Num.C) : list Num.C :=
  map (fun z => Num.Cdivq (Num.Csub z (Num.Cmean capture)) (2 ^ 11)) capture.

Definition scenario2_phases : list Q := [-10; -5; 0; 5; 10]%Q.
Definition scenario2_amps : list Q := [-10; -5; 0; -5; -10]%Q.

Definition scenario1_params : Params :=
  {| samp_rate := 2000000; f_tone := 500000; N := 4096; phase_step := 10;
     update_interval := 40; integration_win := 10; PAD_DB := 1;
     spacing_ratio := 1 # 2; c_light := 300000000; fc := 2400000000;
     phase_start := -10; phase_stop := 10 |}.

(** A receiver that delivers the same two-sample capture [n] times. *)
Definition steady (n : nat) : Scripted :=
  repeat (Ok [(1%Q, 0%Q); (3%Q, 0%Q)]) n.

(** A receiver whose capture after the flush has mean 1 and whose next
    capture has mean 3. *)
Definition capture_low : list Num.C := [(1, 0); (1, 0)]%Q.
Definition capture_high : list Num.C := [(3, 0); (3, 0)]%Q.
Definition two_level_radio : Scripted :=
  repeat (Ok capture_low) 20 ++ [Ok capture_low; Ok capture_high].
Definition two_level_state : State Scripted :=
  Sweep.init script_params two_level_radio.

(** A step about to fire on a receiver that times out at the sixth read. *)
Definition failing_step : State Scripted :=
  mkState (steady 5) (-180)%Q [] [] one_shot_mode no_graphics
          [(0%Z, CbUpdate)] [].

(** Continuous mode, scenario 1: two points recorded, the step for the last
    phase about to fire. *)
Definition continuous_last_step : State Scripted :=
  mkState (steady 100) 10%Q [-10; 0]%Q [1; 1]%Q continuous_mode no_graphics
          [(40%Z, CbUpdate)] [].

(** Scenario 1 before the button is pressed, on a receiver that delivers
    the captures of three steps. *)
Definition scenario1_start : State Scripted :=
  Sweep.init scenario1_params (steady 66).

(** The script's own sweep before the button is pressed, on a receiver that
    delivers captures for all of its steps. *)
Definition script_start : State Scripted :=
  Sweep.init script_params (steady 4000).

(** A state with three recorded points and nothing pending. *)
Definition three_samples : State unit :=
  mkState tt 0%Q [-10; 0; 10]%Q [-7; -1; -7]%Q one_shot_mode no_graphics [] [].

(** ** The event loop with timers firing in any order *)

Module Loop.
Import Num Np Sweep.

Section AnyOrder.
Context {Radio : Type} {port : RadioPort Radio} {np : NumPy}.
Variable p : Params.

(** The list without its [i]-th element. *)
Fixpoint remove_nth {A} (i : nat) (l : list A) : list A :=
  match l with
  | [] => []
  | x :: l' =>
      match i with
      | O => l'
      | S i' => x :: remove_nth i' l'
      end
  end.

(** The [i]-th pending timer fires; nothing happens when there is none. *)
Definition fire_nth (i : nat) : M unit :=
  fun st =>
    match nth_error (timers st) i with
    | None => (Ok tt, st)
    | Some (_, cb) =>
        match cb with
        | CbUpdate => update p (set_timers (remove_nth i (timers st)) st)
        | CbStartSweep =>
            start_sweep p (set_timers (remove_nth i (timers st)) st)
        end
    end.

(** What the event loop dispatches: a click on either button, or the expiry
    of any one of the pending timers. *)
Inductive Input : Type := PressOneShot | PressContinuous | Expire (i : nat).

Definition dispatch (ev : Input) : M unit :=
  match ev with
  | PressOneShot => one_shot p
  | PressContinuous => continuous p
  | Expire i => fire_nth i
  end.

(** The states the program can be in, whatever the order in which pending
    timers expire and whenever the buttons are pressed; a handler that raises
    leaves the state it had reached. *)
Inductive reachable_any : State Radio -> Prop :=
| any_init (r : Radio) : reachable_any (init p r)
| any_event (st : State Radio) (ev : Input) :
    reachable_any st -> reachable_any (snd (dispatch ev st)).

End AnyOrder.
End Loop.

(** The recorded curve is the beginning of one sweep from the start phase,
    and [cur_phase] is the phase of its next step. *)
Definition curve_consistent {Radio : Type} (p : Params) (st : State Radio)
  : Prop :=
  exists k,
    ph_hist st = Sweep.sweep_phases p k /\ length (amp_hist st) = k /\
    cur_phase st = Sweep.phase_at p k.

(** The five graphics handles are all unset, or all set. *)
Definition all_unset (g : Graphics) : bool :=
  match beam_line g, beam_label g, max_line g, max_marker g, max_label g with
  | None, None, None, None, None => true
  | _, _, _, _, _ => false
  end.

Definition all_set (g : Graphics) : bool :=
  match beam_line g, beam_label g, max_line g, max_marker g, max_label g with
  | Some _, Some _, Some _, Some _, Some _ => true
  | _, _, _, _, _ => false
  end.

(** No annotation is shown, or all of it is and the curve has five points
    or more. *)
Definition annotation_consistent {Radio : Type} (st : State Radio) : Prop :=
  all_unset (gfx st) = true \/
  (all_set (gfx st) = true /\ (5 <= length (amp_hist st))%nat).

(** The annotation [annotate_results] leaves for the recorded curve. *)
Definition annotation_of {Radio : Type} (p : Params) (st : State Radio)
  : Graphics :=
  match Annotate.estimate p (ph_hist st) (amp_hist st) with
  | Ok (Some s) => Annotate.draw p s (amp_hist st)
  | _ => no_graphics
  end.

(** ** Lines 52-58: switching on the DC offset tracking of the receiver *)

Module DcTracking.
Import String.
Local Open Scope string_scope.

(** The attributes of the control device, each with its name and value. *)
Definition Attrs : Type := list (string * string).

Definition lookup (key : string) (attrs : Attrs) : option string :=
  option_map snd (find (fun kv => String.eqb (fst kv) key) attrs).

(** [attrs[key].value = v]; [None] stands for the [KeyError] of a missing
    name. *)
Fixpoint set_value (key v : string) (attrs : Attrs) : option Attrs :=
  match attrs with
  | [] => None
  | (k, old) :: rest =>
      if String.eqb k key then Some ((k, v) :: rest)
      else option_map (cons (k, old)) (set_value key v rest)
  end.

Definition rf_key : string := "rf_dc_offset_tracking_en".
Definition bb_key : string := "bb_dc_offset_tracking_en".

(** The nested [try]/[except KeyError]; the boolean tells whether the
    message about software correction was printed. *)
Definition enable_dc_tracking (attrs : Attrs) : Attrs * bool :=
  match set_value rf_key "1" attrs with
  | Some attrs' => (attrs', false)
  | None =>
      match set_value bb_key "1" attrs with
      | Some attrs' => (attrs', false)
      | None => (attrs, true)
      end
  end.

(** A device that knows only the baseband attribute. *)
Definition baseband_only : Attrs :=
  [("gain_control_mode", "manual"); (bb_key, "0")].

End DcTracking.

(** ** Further concrete inputs *)

(** One-shot mode at the last phase of scenario 1 with two steps pending, as
    after a second press of the button during a sweep. *)
Definition two_steps_pending : State Scripted :=
  mkState (steady 100) 10%Q [-10; 0]%Q [1; 1]%Q one_shot_mode no_graphics
          [(40%Z, CbUpdate); (40%Z, CbUpdate)] [].

(** A state reached by pressing Continuous, letting two steps run, and
    pressing One Shot before the third. *)
Definition pressed_twice : State Scripted :=
  snd (Loop.dispatch (np := plain_numpy) scenario1_params Loop.PressOneShot
    (snd (Loop.dispatch (np := plain_numpy) scenario1_params (Loop.Expire 0)
      (snd (Loop.dispatch (np := plain_numpy) scenario1_params (Loop.Expire 0)
        (snd (Loop.dispatch (np := plain_numpy) scenario1_params
                Loop.PressContinuous scenario1_start))))))).

(** A sweep of seven points, -30 to 30 in steps of 10. *)
Definition seven_point_params : Params :=
  {| samp_rate := 2000000; f_tone := 500000; N := 4096; phase_step := 10;
     update_interval := 40; integration_win := 10; PAD_DB := 1;
     spacing_ratio := 1 # 2; c_light := 300000000; fc := 2400000000;
     phase_start := -30; phase_stop := 30 |}.
Definition seven_point_start : State Scripted :=
  Sweep.init seven_point_params (steady 200).

(** The end of the seven-point sweep. *)
Definition seven_point_end : State Scripted :=
  snd (Sweep.sweep_once (np := plain_numpy) seven_point_params 10
         seven_point_start).

(** A step about to read from a receiver whose flushed captures all differ
    from the two that follow. *)
Definition flushed_then_two : State Scripted :=
  Sweep.init script_params
    (map Ok (repeat [(7, 7)]%Q 20) ++ [Ok capture_low; Ok capture_high]).


(** ** A radio that records what it is asked *)

(** The device keeps the calls it received, oldest first, with the phase
    offset of every transmission; every read delivers the same capture. *)
Definition Recording : Type := list RadioCmd.

#[export] Instance recording_port : RadioPort Recording := {|
  tx_destroy_buffer := fun r => (Ok tt, r ++ [CmdTxDestroy]);
  tx := fun phase r => (Ok tt, r ++ [CmdTx phase]);
  rx := fun r => (Ok [(1%Q, 0%Q); (3%Q, 0%Q)], r ++ [CmdRx])
|}.

(** Scenario 1 and the script's own sweep on the recording radio. *)
Definition recording_scenario1 : State Recording :=
  Sweep.init scenario1_params [].
Definition recording_script : State Recording :=
  Sweep.init script_params [].

Definition recording_script_end : State Recording :=
  snd (Sweep.sweep_once (np := plain_numpy) script_params 200
         recording_script).

(** The phase offsets of the transmissions in a record of calls. *)
Definition transmissions (log : list RadioCmd) : list Q :=
  flat_map (fun c => match c with CmdTx phase => [phase] | _ => [] end) log.

Definition recording_after_first_step : State Recording :=
  snd (Sweep.handle (np := plain_numpy) scenario1_params Sweep.TimerFires
         (snd (Sweep.handle (np := plain_numpy) scenario1_params
                 Sweep.ClickOneShot recording_scenario1))).

(** ** Two presses of One Shot in a row *)


(** Scenario 1 after two presses of One Shot, on a receiver whose first
    read fails and which delivers captures from then on. *)
Definition failing_then_steady : State Scripted :=
  snd (Sweep.one_shot scenario1_params
         (snd (Sweep.one_shot scenario1_params
                 (Sweep.init scenario1_params
                    (Raise (RadioError 5) :: steady 100))))).

(** The same after the first of the two pending steps has fired. *)
Definition after_failed_step : State Scripted :=
  snd (Sweep.fire (np := plain_numpy) scenario1_params failing_then_steady).

(* ================================================================== *)
(** * Part II: properties *)
(* ================================================================== *)

(** ** Comparisons and indexing *)

Section Basics.
Import Num Np Lqa.
Local Open Scope Q_scope.

Lemma Qltb_lt (a b : Q) : Qltb a b = true <-> a < b.
Proof.
  unfold Qltb. rewrite negb_true_iff. split; intro H.
  - apply Qnot_le_lt. intro L. apply Qle_bool_iff in L. congruence.
  - destruct (Qle_bool b a) eqn:E; [|reflexivity].
    apply Qle_bool_iff in E. exfalso. exact (Qlt_not_le _ _ H E).
Qed.

Lemma Qltb_ge (a b : Q) : Qltb a b = false <-> b <= a.
Proof.
  unfold Qltb. rewrite negb_false_iff. apply Qle_bool_iff.
Qed.

Lemma get_nth {A} (l : list A) (i : nat) (dflt : A) :
  (i < length l)%nat -> get l i = Ok (nth i l dflt).
Proof.
  intro H. unfold get.
  rewrite (nth_error_nth' l dflt H). reflexivity.
Qed.

Lemma get_last_nth {A} (l : list A) (dflt : A) :
  (0 < length l)%nat -> get_last l = Ok (nth (length l - 1) l dflt).
Proof.
  intro H. destruct l as [|a l]; [simpl in H; lia|].
  unfold get_last. apply get_nth. simpl. lia.
Qed.

Lemma argmax_from_bound (l : list Q) :
  forall bi b i, (bi < i)%nat -> (argmax_from bi b i l < i + length l)%nat.
Proof.
  induction l as [|x l IH]; intros bi b i H; simpl.
  - lia.
  - destruct (Qltb b x).
    + specialize (IH i x (S i)). lia.
    + specialize (IH bi b (S i)). lia.
Qed.

Lemma argmax_in_range (l : list Q) :
  l <> [] -> exists im, argmax l = Ok im /\ (im < length l)%nat.
Proof.
  destruct l as [|x l]; [congruence|]. intros _.
  exists (argmax_from 0 x 1 l). split; [reflexivity|].
  pose proof (argmax_from_bound l x (Nat.lt_0_1)). simpl. lia.
Qed.

(** [argmax_from] continues a scan of [pre ++ l] that has seen [pre] and
    holds the first maximum of [pre]. *)
Lemma argmax_from_first_max (l : list Q) :
  forall (pre : list Q) (bi : nat) (b : Q),
    (bi < length pre)%nat -> b = nth bi pre 0 ->
    (forall j, (j < length pre)%nat -> nth j pre 0 <= b) ->
    (forall j, (j < bi)%nat -> nth j pre 0 < b) ->
    let im := argmax_from bi b (length pre) l in
    (forall j, (j < length (pre ++ l))%nat ->
       nth j (pre ++ l) 0 <= nth im (pre ++ l) 0) /\
    (forall j, (j < im)%nat -> nth j (pre ++ l) 0 < nth im (pre ++ l) 0).
Proof.
  induction l as [|x l IH]; intros pre bi b Hbi Hb Hmax Hfirst; cbn [argmax_from].
  - rewrite app_nil_r. subst b. split; assumption.
  - assert (Hlen : length (pre ++ [x]) = S (length pre))
      by (rewrite length_app; simpl; lia).
    replace (pre ++ x :: l) with ((pre ++ [x]) ++ l)
      by (rewrite <- app_assoc; reflexivity).
    rewrite <- Hlen.
    destruct (Qltb b x) eqn:E.
    + apply Qltb_lt in E.
      apply (IH (pre ++ [x]) (length pre) x).
      * rewrite Hlen. lia.
      * rewrite app_nth2 by lia. rewrite Nat.sub_diag. reflexivity.
      * intros j Hj. rewrite Hlen in Hj.
        destruct (Nat.eq_dec j (length pre)) as [->|N].
        -- rewrite app_nth2 by lia. rewrite Nat.sub_diag. simpl. lra.
        -- rewrite app_nth1 by lia. specialize (Hmax j ltac:(lia)). lra.
      * intros j Hj.
        rewrite app_nth1 by lia. specialize (Hmax j ltac:(lia)). lra.
    + apply Qltb_ge in E.
      apply (IH (pre ++ [x]) bi b).
      * rewrite Hlen. lia.
      * rewrite app_nth1 by lia. exact Hb.
      * intros j Hj. rewrite Hlen in Hj.
        destruct (Nat.eq_dec j (length pre)) as [->|N].
        -- rewrite app_nth2 by lia. rewrite Nat.sub_diag. simpl. exact E.
        -- rewrite app_nth1 by lia. apply Hmax. lia.
      * intros j Hj. rewrite app_nth1 by lia. apply Hfirst. exact Hj.
Qed.

(** [np.argmax] returns the first index that holds the maximum. *)
Lemma argmax_first_max (l : list Q) (im : nat) :
  argmax l = Ok im ->
  (forall j, (j < length l)%nat -> nth j l 0 <= nth im l 0) /\
  (forall j, (j < im)%nat -> nth j l 0 < nth im l 0).
Proof.
  destruct l as [|x l]; [discriminate|]. intro H. injection H as <-.
  apply (argmax_from_first_max l [x] (bi := 0) (b := x)).
  - simpl. lia.
  - reflexivity.
  - intros j Hj. simpl in Hj. replace j with 0%nat by lia. simpl. lra.
  - intros j Hj. lia.
Qed.

(** A key above the last abscissa returns the last ordinate, whatever the
    first abscissa is: this is the case of a table given in descending
    order. *)
Lemma interp2_above_last (x x0 x1 f0 f1 : Q) :
  x1 < x -> interp2 x x0 x1 f0 f1 = f1.
Proof.
  intro H. unfold interp2. apply Qltb_lt in H. rewrite H. reflexivity.
Qed.

End Basics.

(** ** The five-sample scenario *)

(** C1 (as the script behaves).  On the symmetric curve the peak is at phase
    0 with 0 dB, the threshold is -3 dB and the left crossing is the
    interpolated phase -3 -- but the right crossing is the sample phase 5
    itself, not an interpolated phase between 0 and 5, and the width is 8,
    not 6.  Line 139 hands [np.interp] the abscissae [0, -5] in descending
    order; with the same two samples in ascending order it returns 3. *)
Theorem scenario2_right_crossing_is_a_sample :
  exists s,
    Hpbw.crossings scenario2_phases scenario2_amps = Ok (Some s) /\
    (Hpbw.peak_phi s == 0 /\ Hpbw.peak_db s == 0 /\ Hpbw.half_db s == -3 /\
     Hpbw.left s == -3 /\ Hpbw.right s == 5 /\ Hpbw.hpbw_phase s == 8 /\
     Hpbw.right s = Np.interp2 (-3) 0 (-5) 0 5 /\
     Np.interp2 (-3) (-5) 0 5 0 == 3)%Q.
Proof.
  eexists. split; [vm_compute; reflexivity|].
  repeat split; vm_compute; reflexivity.
Qed.

(** ** Fewer than five samples *)

(** C6.  With fewer than five recorded amplitudes the estimate is the early
    return, and [annotate_results] leaves the whole state, the five graphics
    handles included, as it was. *)
Theorem insufficient_data_no_summary (p : Params) (phases amps : list Q) :
  (length amps < 5)%nat ->
  Annotate.estimate p phases amps = Ok None /\
  forall (Radio : Type) (st : State Radio),
    ph_hist st = phases -> amp_hist st = amps ->
    Sweep.annotate_results p st = (Ok tt, st).
Proof.
  intro H.
  assert (E : Annotate.estimate p phases amps = Ok None).
  { unfold Annotate.estimate, Hpbw.crossings.
    apply Nat.ltb_lt in H. rewrite H. reflexivity. }
  split; [exact E|].
  intros Radio st Hp Ha. unfold Sweep.annotate_results.
  rewrite Hp, Ha, E. reflexivity.
Qed.

Lemma insufficient_data_no_summary_witness :
  Annotate.estimate script_params [-10; 0; 10]%Q [-7; -1; -7]%Q = Ok None /\
  Sweep.annotate_results script_params three_samples = (Ok tt, three_samples).
Proof.
  assert (H : (length [-7; -1; -7]%Q < 5)%nat) by (simpl; lia).
  destruct (insufficient_data_no_summary script_params
              [-10; 0; 10]%Q [-7; -1; -7]%Q H) as [E U].
  split; [exact E|].
  apply U; reflexivity.
Defined.

(** ** The angle stays within a quarter turn *)

Section Geometry.
Import BeamGeometry Lra.
Local Open Scope R_scope.

Lemma clip_range (x : R) : -1 <= clip x (-1) 1 <= 1.
Proof.
  unfold clip. split.
  - apply Rmin_glb; [apply Rmax_r | lra].
  - apply Rmin_r.
Qed.

Lemma arcsin_defined (s : R) : -1 <= s <= 1 -> arcsin s = Some (asin s).
Proof.
  intros [Hl Hu]. unfold arcsin.
  destruct (Rle_dec (-1) s) as [_|N]; [|contradiction].
  destruct (Rle_dec s 1) as [_|N]; [reflexivity|contradiction].
Qed.

Lemma degrees_quarter_turn (a : R) :
  - (PI / 2) <= a <= PI / 2 -> -90 <= degrees a <= 90.
Proof.
  intros [Hl Hu]. unfold degrees.
  pose proof PI_RGT_0 as Hpi.
  assert (E : PI / 2 * (180 / PI) = 90) by (field; lra).
  assert (P : 0 < 180 / PI) by (apply Rdiv_lt_0_compat; lra).
  split.
  - assert (E' : - (PI / 2) * (180 / PI) = -90) by (field; lra).
    rewrite <- E'. apply Rmult_le_compat_r; lra.
  - rewrite <- E. apply Rmult_le_compat_r; lra.
Qed.

(** C7.  Whatever the phase offset, for positive wavelength and spacing the
    sine handed to the arcsine lies in [-1, 1], so the arcsine is defined and
    the angle lies in [-90, 90] degrees. *)
Theorem angle_within_quarter_turn (phase lam d : R) :
  0 < lam -> 0 < d ->
  -1 <= spatial_sine phase lam d <= 1 /\
  exists theta,
    phase_to_angle phase lam d = Some theta /\ -90 <= theta <= 90.
Proof.
  intros _ _.
  pose proof (clip_range (deg2rad phase * lam / (2 * PI * d))) as Hc.
  split; [exact Hc|].
  exists (degrees (asin (spatial_sine phase lam d))). split.
  - unfold phase_to_angle. fold (spatial_sine phase lam d) in Hc.
    rewrite (arcsin_defined Hc). reflexivity.
  - apply degrees_quarter_turn, asin_bound.
Qed.

Lemma angle_within_quarter_turn_witness :
  -1 <= spatial_sine 720 (1 / 8) (1 / 16) <= 1 /\
  exists theta,
    phase_to_angle 720 (1 / 8) (1 / 16) = Some theta /\ -90 <= theta <= 90.
Proof.
  apply (@angle_within_quarter_turn 720 (1 / 8) (1 / 16)); lra.
Defined.

End Geometry.

(** ** The two scans of the estimator *)

Section Scans.
Import Num Np Hpbw Lqa.
Local Open Scope Q_scope.

Variables phases amps : list Q.
Hypothesis same_length : length phases = length amps.

(** On a table in ascending order with the key inside it, [interp2] is the
    point of the chord at which the abscissa equals the key. *)
Lemma interp2_ascending (x x0 x1 f0 f1 : Q) :
  x0 < x -> x <= x1 ->
  exists t, 0 < t /\ t <= 1 /\
    interp2 x x0 x1 f0 f1 == f0 + t * (f1 - f0) /\
    x0 + t * (x1 - x0) == x.
Proof.
  intros H0 H1. unfold interp2.
  assert (E1 : Qltb x1 x = false) by (apply Qltb_ge; exact H1).
  assert (E2 : Qltb x x0 = false) by (apply Qltb_ge; lra).
  rewrite E1, E2.
  destruct (Qle_bool x1 x) eqn:E3.
  - apply Qle_bool_iff in E3. exists 1. repeat split; try lra.
  - assert (E4 : Qeq_bool x0 x = false).
    { destruct (Qeq_bool x0 x) eqn:E; [|reflexivity].
      apply Qeq_bool_iff in E. lra. }
    rewrite E4.
    assert (L : x < x1).
    { apply Qnot_le_lt. intro L. apply Qle_bool_iff in L. congruence. }
    assert (D : 0 < x1 - x0) by lra.
    exists ((x - x0) / (x1 - x0)). repeat split.
    + apply Qlt_shift_div_l; lra.
    + apply Qle_shift_div_r; lra.
    + field. lra.
    + field. lra.
Qed.

Lemma scan_left_spec (h dflt : Q) (n : nat) :
  (n < length amps)%nat -> h <= nth n amps 0 ->
  exists l,
    scan_left phases amps h n dflt = Ok l /\
    (((forall j, (j < n)%nat -> h <= nth j amps 0) /\ l = dflt) \/
     (exists i, (i < n)%nat /\ nth i amps 0 < h /\
        (forall j, (i < j < n)%nat -> h <= nth j amps 0) /\
        h <= nth (i + 1) amps 0 /\
        l = interp2 h (nth i amps 0) (nth (i + 1) amps 0)
                      (nth i phases 0) (nth (i + 1) phases 0))).
Proof.
  induction n as [|i IH]; intros Hn Hh.
  - exists dflt. split; [reflexivity|]. left. split; [intros; lia|reflexivity].
  - cbn [scan_left]. unfold ebind at 1.
    rewrite (get_nth amps 0) by lia.
    destruct (Qltb (nth i amps 0) h) eqn:E.
    + apply Qltb_lt in E.
      rewrite (get_nth amps 0) by lia.
      rewrite (get_nth phases 0) by lia.
      rewrite (get_nth phases 0) by lia.
      cbn [ebind]. eexists. split; [reflexivity|]. right.
      exists i. split; [lia|]. split; [exact E|].
      split; [intros j Hj; lia|].
      split; [rewrite Nat.add_1_r; exact Hh|reflexivity].
    + apply Qltb_ge in E.
      destruct IH as [l [Hl Hcase]]; [lia|exact E|].
      exists l. split; [exact Hl|].
      destruct Hcase as [[Hall Hd]|[k [Hk [Hak [Hbetween [Hnext Hv]]]]]].
      * left. split; [|exact Hd].
        intros j Hj. destruct (Nat.eq_dec j i) as [->|]; [exact E|].
        apply Hall. lia.
      * right. exists k. split; [lia|]. split; [exact Hak|].
        split; [|split; assumption].
        intros j Hj. destruct (Nat.eq_dec j i) as [->|]; [exact E|].
        apply Hbetween. lia.
Qed.

Lemma scan_right_spec (h dflt : Q) (c : nat) :
  forall i, (1 <= i)%nat -> (i + c = length amps)%nat ->
  exists r,
    scan_right phases amps h c i dflt = Ok r /\
    (((forall j, (i <= j < length amps)%nat -> h <= nth j amps 0) /\
      r = dflt) \/
     (exists k, (i <= k < length amps)%nat /\ nth k amps 0 < h /\
        (forall j, (i <= j < k)%nat -> h <= nth j amps 0) /\
        r = nth k phases 0)).
Proof.
  induction c as [|c IH]; intros i Hi Hlen.
  - exists dflt. split; [reflexivity|]. left. split; [intros; lia|reflexivity].
  - cbn [scan_right]. unfold ebind at 1.
    rewrite (get_nth amps 0) by lia.
    destruct (Qltb (nth i amps 0) h) eqn:E.
    + pose proof E as E'. apply Qltb_lt in E.
      rewrite (get_nth amps 0) by lia.
      rewrite (get_nth phases 0) by lia.
      rewrite (get_nth phases 0) by lia.
      cbn [ebind]. rewrite (interp2_above_last _ _ _ E).
      eexists. split; [reflexivity|]. right.
      exists i. split; [lia|]. split; [exact E|].
      split; [intros j Hj; lia|reflexivity].
    + apply Qltb_ge in E.
      destruct (IH (S i)) as [r [Hr Hcase]]; [lia|lia|].
      exists r. split; [exact Hr|].
      destruct Hcase as [[Hall Hd]|[k [Hk [Hak [Hbetween Hv]]]]].
      * left. split; [|exact Hd].
        intros j Hj. destruct (Nat.eq_dec j i) as [->|]; [exact E|].
        apply Hall. lia.
      * right. exists k. split; [lia|]. split; [exact Hak|].
        split; [|exact Hv].
        intros j Hj. destruct (Nat.eq_dec j i) as [->|]; [exact E|].
        apply Hbetween. lia.
Qed.

(** With five or more samples the estimate is computed, from the two scans
    started at the index of the maximum. *)
Lemma crossings_computed :
  (5 <= length amps)%nat ->
  exists im l r,
    (im < length amps)%nat /\ argmax amps = Ok im /\
    crossings phases amps =
      Ok (Some (mkCrossings im (nth im amps 0) (nth im phases 0)
                            (nth im amps 0 - 3) l r (r - l))) /\
    (((forall j, (j < im)%nat -> nth im amps 0 - 3 <= nth j amps 0) /\
      l = nth 0 phases 0) \/
     (exists i, (i < im)%nat /\ nth i amps 0 < nth im amps 0 - 3 /\
        (forall j, (i < j < im)%nat -> nth im amps 0 - 3 <= nth j amps 0) /\
        nth im amps 0 - 3 <= nth (i + 1) amps 0 /\
        l = interp2 (nth im amps 0 - 3) (nth i amps 0) (nth (i + 1) amps 0)
                    (nth i phases 0) (nth (i + 1) phases 0))) /\
    (((forall j, (im + 1 <= j < length amps)%nat ->
         nth im amps 0 - 3 <= nth j amps 0) /\
      r = nth (length phases - 1) phases 0) \/
     (exists k, (im + 1 <= k < length amps)%nat /\
        nth k amps 0 < nth im amps 0 - 3 /\
        (forall j, (im + 1 <= j < k)%nat ->
           nth im amps 0 - 3 <= nth j amps 0) /\
        r = nth k phases 0)).
Proof.
  intro H5.
  destruct (@argmax_in_range amps) as [im [Him Hlt]].
  { intro E. rewrite E in H5. simpl in H5. lia. }
  assert (Hh : nth im amps 0 - 3 <= nth im amps 0) by lra.
  destruct (scan_left_spec (nth 0 phases 0) Hlt Hh) as [l [Hl HL]].
  destruct (@scan_right_spec (nth im amps 0 - 3)
              (nth (length phases - 1) phases 0)
              (length amps - (im + 1)) (im + 1)) as [r [Hr HR]]; [lia|lia|].
  exists im, l, r. split; [exact Hlt|]. split; [exact Him|].
  split; [|split; assumption].
  unfold crossings.
  assert (F : (length amps <? 5)%nat = false) by (apply Nat.ltb_ge; exact H5).
  rewrite F, Him. cbn [ebind].
  rewrite (get_nth amps 0) by lia. cbn [ebind].
  rewrite (get_nth phases 0) by lia. cbn [ebind].
  rewrite (get_nth phases 0) by lia. cbn [ebind].
  rewrite Hl. cbn [ebind].
  rewrite (get_last_nth phases 0) by lia. cbn [ebind].
  rewrite Hr. reflexivity.
Qed.

End Scans.

(** ** The left half-power bound *)

Section LeftBound.
Import Num Np Hpbw Lqa.
Local Open Scope Q_scope.

(** The left scan over the rationals, that is, with every operation exact.
    Its peak index is the first index of the largest amplitude; let [h] be
    three below the amplitude there.  Either no index below the peak index
    has an amplitude under [h], and the left bound is the first phase; or
    [i] is the first such index going down from the peak, and the left bound
    is the point of the chord from sample [i] to sample [i + 1] at which the
    amplitude on the chord is [h].  What the doubles of the script make of
    this is the subject of the next section. *)
Lemma left_crossing_exact_arithmetic (phases amps : list Q) :
  length phases = length amps -> (5 <= length amps)%nat ->
  exists s,
    crossings phases amps = Ok (Some s) /\
    (idx_max s < length amps)%nat /\
    (forall j, (j < length amps)%nat ->
       nth j amps 0 <= nth (idx_max s) amps 0) /\
    (forall j, (j < idx_max s)%nat ->
       nth j amps 0 < nth (idx_max s) amps 0) /\
    half_db s = nth (idx_max s) amps 0 - 3 /\
    (((forall j, (j < idx_max s)%nat -> half_db s <= nth j amps 0) /\
      left s = nth 0 phases 0) \/
     (exists i, (i < idx_max s)%nat /\ nth i amps 0 < half_db s /\
        (forall j, (i < j < idx_max s)%nat -> half_db s <= nth j amps 0) /\
        exists t, 0 < t /\ t <= 1 /\
          left s == nth i phases 0
                    + t * (nth (i + 1) phases 0 - nth i phases 0) /\
          nth i amps 0 + t * (nth (i + 1) amps 0 - nth i amps 0)
          == half_db s)).
Proof.
  intros Hlen H5.
  destruct (@crossings_computed phases amps Hlen H5)
    as [im [l [r [Him [Ham [Hc [HL _]]]]]]].
  eexists. split; [exact Hc|]. cbn [idx_max half_db left].
  split; [exact Him|].
  destruct (argmax_first_max amps Ham) as [Hmax Hfirst].
  split; [exact Hmax|]. split; [exact Hfirst|]. split; [reflexivity|].
  destruct HL as [[Hall Hd]|[i [Hi [Hai [Hbetween [Hnext Hv]]]]]].
  - left. split; assumption.
  - right. exists i. split; [exact Hi|]. split; [exact Hai|].
    split; [exact Hbetween|].
    destruct (interp2_ascending (nth i phases 0) (nth (i + 1) phases 0)
                Hai Hnext) as [t [Ht0 [Ht1 [Hval Hpow]]]].
    exists t. rewrite Hv. repeat split; assumption.
Qed.

End LeftBound.

(** ** The left half-power bound in binary64 *)

Section Binary64.
Import Np Hpbw64 Floats.
Local Open Scope float_scope.

(** *** Order facts of the IEEE comparisons *)






(** *** The peak index and the scan *)







(** The threshold is the rounded difference.  On the curve whose flanks are
    the double nearest -2.7 and whose peak is the double nearest 0.3, the
    double [peak_db - 3] is the amplitude of the flanks: no amplitude is
    under the threshold, and the left bound is the first phase -- although
    the flanks lie below the exact difference of the same two doubles. *)
Example threshold_is_rounded :
  exists s a pk,
    left_bound level_phases level_amps = Ok (Some s) /\
    half_db s = nth 1 level_amps 0 /\
    left s = -10 /\
    to_Q (nth 1 level_amps 0) = Some a /\ to_Q (peak_db s) = Some pk /\
    (a < pk - 3)%Q.
Proof.
  eexists. eexists. eexists.
  split; [vm_compute; reflexivity|].
  split; [vm_compute; reflexivity|].
  split; [vm_compute; reflexivity|].
  split; [vm_compute; reflexivity|].
  split; [vm_compute; reflexivity|].
  vm_compute. reflexivity.
Qed.

(** On the five-sample curve of scenario 2, whose numbers are all doubles,
    binary64 and exact arithmetic agree on the left bound: threshold -3,
    left bound -3. *)
Example scenario2_left_bound_in_binary64 :
  exists s l l',
    left_bound [-10; -5; 0; 5; 10] [-10; -5; 0; -5; -10] = Ok (Some s) /\
    half_db s = -3 /\ left s = -3 /\
    Hpbw.scan_left scenario2_phases scenario2_amps (-3) 2 (-10) = Ok l /\
    to_Q (left s) = Some l' /\ (l == l')%Q.
Proof.
  eexists. eexists. eexists.
  split; [vm_compute; reflexivity|].
  split; [reflexivity|]. split; [reflexivity|].
  split; [vm_compute; reflexivity|].
  split; vm_compute; reflexivity.
Qed.

End Binary64.

(** ** Both bounds bracket the peak *)

Section Bracket.
Import Num Np Hpbw Lqa.
Local Open Scope Q_scope.

Lemma increasing_adjacent (l : list Q) :
  increasing l = true ->
  forall i, (S i < length l)%nat -> nth i l 0 < nth (S i) l 0.
Proof.
  induction l as [|x l IH]; intros H i Hi; [simpl in Hi; lia|].
  destruct l as [|y l]; [simpl in Hi; lia|].
  cbn [increasing] in H. apply andb_true_iff in H. destruct H as [Hxy Hrest].
  destruct i as [|i].
  - simpl. apply Qltb_lt. exact Hxy.
  - change (nth i (y :: l) 0 < nth (S i) (y :: l) 0).
    apply IH; [exact Hrest | simpl in Hi |- *; lia].
Qed.

Lemma increasing_nth_le (l : list Q) :
  increasing l = true ->
  forall i j, (i <= j)%nat -> (j < length l)%nat -> nth i l 0 <= nth j l 0.
Proof.
  intros H i j Hij. induction Hij as [|j Hij IH]; intro Hj.
  - lra.
  - pose proof (increasing_adjacent l H Hj). specialize (IH ltac:(lia)). lra.
Qed.

(** A point of the chord between two ordered ordinates lies between them. *)
Lemma chord_between (f0 f1 t v : Q) :
  f0 <= f1 -> 0 < t -> t <= 1 -> v == f0 + t * (f1 - f0) ->
  f0 <= v /\ v <= f1.
Proof.
  intros Hf Ht0 Ht1 Hv.
  assert (A : 0 <= t * (f1 - f0)) by (apply Qmult_le_0_compat; lra).
  assert (B : 0 <= (1 - t) * (f1 - f0)) by (apply Qmult_le_0_compat; lra).
  split; [lra|].
  assert (E : f1 - v == (1 - t) * (f1 - f0)) by (rewrite Hv; ring).
  lra.
Qed.

(** C10.  With five or more samples and strictly increasing phases the left
    bound is at most the peak phase, the right bound at least the peak phase,
    both lie between the first and the last phase, and the width is not
    negative. *)
Theorem bounds_bracket_peak (phases amps : list Q) :
  length phases = length amps -> (5 <= length amps)%nat ->
  increasing phases = true ->
  exists s,
    crossings phases amps = Ok (Some s) /\
    left s <= peak_phi s /\ peak_phi s <= right s /\
    nth 0 phases 0 <= left s /\
    left s <= nth (length phases - 1) phases 0 /\
    nth 0 phases 0 <= right s /\
    right s <= nth (length phases - 1) phases 0 /\
    0 <= hpbw_phase s.
Proof.
  intros Hlen H5 Hinc.
  destruct (@crossings_computed phases amps Hlen H5)
    as [im [l [r [Him [_ [Hc [HL HR]]]]]]].
  eexists. split; [exact Hc|]. cbn [left right peak_phi hpbw_phase].
  pose proof (increasing_nth_le phases Hinc) as Mono.
  set (first := nth 0 phases 0) in *.
  set (final := nth (length phases - 1) phases 0) in *.
  set (peak := nth im phases 0).
  assert (Hfp : first <= peak) by (apply Mono; lia).
  assert (Hpl : peak <= final) by (apply Mono; lia).
  assert (Lb : first <= l /\ l <= peak).
  { destruct HL as [[_ Hd]|[i [Hi [Hai [_ [Hnext Hv]]]]]].
    - rewrite Hd. split; lra.
    - destruct (interp2_ascending (nth i phases 0) (nth (i + 1) phases 0)
                  Hai Hnext) as [t [Ht0 [Ht1 [Hval _]]]].
      rewrite <- Hv in Hval.
      assert (Hstep : nth i phases 0 <= nth (i + 1) phases 0)
        by (apply Mono; lia).
      destruct (chord_between Hstep Ht0 Ht1 Hval) as [Hlo Hhi].
      assert (first <= nth i phases 0) by (apply Mono; lia).
      assert (nth (i + 1) phases 0 <= peak) by (apply Mono; lia).
      split; lra. }
  assert (Rb : peak <= r /\ r <= final).
  { destruct HR as [[_ Hd]|[k [Hk [_ [_ Hv]]]]].
    - rewrite Hd. split; lra.
    - rewrite Hv.
      assert (peak <= nth k phases 0) by (apply Mono; lia).
      assert (nth k phases 0 <= final) by (apply Mono; lia).
      split; lra. }
  destruct Lb as [L1 L2]. destruct Rb as [R1 R2].
  repeat split; lra.
Qed.

Lemma bounds_bracket_peak_witness :
  exists s,
    crossings scenario2_phases scenario2_amps = Ok (Some s) /\
    left s <= peak_phi s /\ peak_phi s <= right s /\
    nth 0 scenario2_phases 0 <= left s /\
    left s <= nth (length scenario2_phases - 1) scenario2_phases 0 /\
    nth 0 scenario2_phases 0 <= right s /\
    right s <= nth (length scenario2_phases - 1) scenario2_phases 0 /\
    0 <= hpbw_phase s.
Proof.
  apply (@bounds_bracket_peak scenario2_phases scenario2_amps).
  - reflexivity.
  - simpl. lia.
  - vm_compute. reflexivity.
Defined.

End Bracket.

(** ** One step of the sweep *)

Section StepFacts.
Import Num Np Sweep Lqa.
Local Open Scope Q_scope.
Context {Radio : Type} {port : RadioPort Radio} {np : NumPy}.
Variable p : Params.

Lemma same_sweep_refl (st : State Radio) : same_sweep st st.
Proof. unfold same_sweep. repeat split. Qed.

Lemma same_sweep_trans (a b c : State Radio) :
  same_sweep a b -> same_sweep b c -> same_sweep a c.
Proof.
  unfold same_sweep. intros H1 H2.
  decompose [and] H1. decompose [and] H2. repeat split; congruence.
Qed.

Lemma radio_only_ret {A} (a : A) : radio_only (Radio:=Radio) (ret a) [].
Proof.
  intro st. simpl. split; [apply same_sweep_refl|].
  intros _ _. rewrite app_nil_r. reflexivity.
Qed.

Lemma radio_only_call {A} (cmd : RadioCmd) (op : Radio -> Exc A * Radio) :
  radio_only (call cmd op) [cmd].
Proof.
  intro st. unfold call. destruct (op (radio st)) as [r rd]. simpl.
  split; [unfold same_sweep; simpl; repeat split | reflexivity].
Qed.

Lemma radio_only_bind {A B} (m : M A) (k : A -> M B) (c1 c2 : list RadioCmd) :
  radio_only (Radio:=Radio) m c1 -> (forall a, radio_only (k a) c2) ->
  radio_only (bind m k) (c1 ++ c2).
Proof.
  intros Hm Hk st. unfold bind.
  destruct (Hm st) as [S1 L1].
  destruct (m st) as [[a|e] st1] eqn:E; simpl in *.
  - destruct (Hk a st1) as [S2 L2]. split.
    + eapply same_sweep_trans; eassumption.
    + intros b Hb. rewrite (L2 b Hb), (L1 a eq_refl), app_assoc. reflexivity.
  - split; [exact S1|]. intros b Hb. discriminate.
Qed.

Lemma radio_only_flush (n : nat) :
  radio_only (Radio:=Radio) (flush n) (repeat CmdRx n).
Proof.
  induction n as [|n IH]; cbn [flush repeat].
  - apply radio_only_ret.
  - change (CmdRx :: repeat CmdRx n) with ([CmdRx] ++ repeat CmdRx n).
    apply radio_only_bind; [apply radio_only_call | intros _; exact IH].
Qed.

Lemma radio_only_acquire (phase : Q) :
  radio_only (Radio:=Radio) (acquire phase) (step_commands phase).
Proof.
  unfold acquire.
  change (step_commands phase)
    with ([CmdTxDestroy] ++ [CmdTx phase] ++ repeat CmdRx 20
          ++ [CmdRx] ++ [CmdRx] ++ []).
  apply radio_only_bind; [apply radio_only_call|intros _].
  apply radio_only_bind; [apply radio_only_call|intros _].
  apply radio_only_bind; [apply radio_only_flush|intros _].
  apply radio_only_bind; [apply radio_only_call|intros a].
  apply radio_only_bind; [apply radio_only_call|intros b].
  apply radio_only_ret.
Qed.

(** [annotate_results] changes nothing but the graphics handles. *)
Lemma annotate_results_keeps (st : State Radio) :
  let st' := snd (annotate_results p st) in
  cur_phase st' = cur_phase st /\ ph_hist st' = ph_hist st /\
  amp_hist st' = amp_hist st /\ mode st' = mode st /\
  timers st' = timers st /\ radio_log st' = radio_log st.
Proof.
  unfold annotate_results.
  destruct (Annotate.estimate p (ph_hist st) (amp_hist st)) as [[s|]|e];
    simpl; repeat split.
Qed.

(** [update] with its sequencing written out. *)
Lemma update_unfold (st : State Radio) :
  update p st =
  match acquire (cur_phase st) st with
  | (Raise e, st1) => (Raise e, st1)
  | (Ok samples, st1) =>
      match Spectral.spectrum p samples with
      | Raise e => (Raise e, st1)
      | Ok r =>
          let st2 :=
            set_cur_phase (cur_phase st1 + phase_step p)
              (set_hist (ph_hist st1 ++ [cur_phase st1])
                        (amp_hist st1 ++ [20 * np_log10 (snd r)]) st1) in
          if Qltb (phase_stop p) (cur_phase st2) then
            match annotate_results p st2 with
            | (Raise e, st3) => (Raise e, st3)
            | (Ok _, st3) =>
                match mode st3 with
                | continuous_mode =>
                    (Ok tt, set_timers
                              (timers st3
                               ++ [(update_interval p, CbStartSweep)]) st3)
                | one_shot_mode => (Ok tt, st3)
                end
            end
          else
            (Ok tt, set_timers
                      (timers st2 ++ [(update_interval p, CbUpdate)]) st2)
      end
  end.
Proof.
  unfold update, bind, gets, lift, record_point, modify, singleShot, ret.
  destruct (acquire (cur_phase st) st) as [[samples|e] st1]; [|reflexivity].
  destruct (Spectral.spectrum p samples) as [r|e]; [|reflexivity].
  cbv zeta. cbn [cur_phase set_cur_phase set_hist].
  destruct (Qltb (phase_stop p) (cur_phase st1 + phase_step p));
    [|reflexivity].
  destruct (annotate_results p _) as [[[]|e] st3]; [|reflexivity].
  destruct (mode st3); reflexivity.
Qed.

(** [start_sweep] with its sequencing written out. *)
Lemma start_sweep_unfold (st : State Radio) :
  start_sweep p st =
  (Ok tt,
   mkState (radio st) (phase_start p) [] [] (mode st) no_graphics
           (timers st ++ [(0%Z, CbUpdate)]) (radio_log st)).
Proof. reflexivity. Qed.

(** What a step that returns has done. *)
Lemma update_ok (st st' : State Radio) :
  update p st = (Ok tt, st') ->
  exists a,
    ph_hist st' = ph_hist st ++ [cur_phase st] /\
    amp_hist st' = amp_hist st ++ [a] /\
    cur_phase st' = cur_phase st + phase_step p /\
    mode st' = mode st /\
    radio_log st' = radio_log st ++ step_commands (cur_phase st) /\
    timers st' =
      timers st ++ scheduled_after p (mode st) (cur_phase st + phase_step p).
Proof.
  rewrite update_unfold.
  destruct (radio_only_acquire (cur_phase st) st) as [Same Log].
  destruct (acquire (cur_phase st) st) as [[samples|e] st1] eqn:Ea;
    [|discriminate].
  simpl in Same, Log. specialize (Log samples eq_refl).
  destruct Same as [Sc [Sp [Sa [Sm [Sg St]]]]].
  destruct (Spectral.spectrum p samples) as [r|e]; [|discriminate].
  cbv zeta.
  set (a := 20 * np_log10 (snd r)).
  set (st2 := set_cur_phase _ _).
  assert (F : ph_hist st2 = ph_hist st ++ [cur_phase st] /\
              amp_hist st2 = amp_hist st ++ [a] /\
              cur_phase st2 = cur_phase st + phase_step p /\
              mode st2 = mode st /\ radio_log st2 = radio_log st1 /\
              timers st2 = timers st).
  { subst st2. simpl. repeat split; congruence. }
  destruct F as [Fp [Fa [Fc [Fm [Fl Ft]]]]].
  unfold scheduled_after. rewrite <- Fc.
  destruct (Qltb (phase_stop p) (cur_phase st2)).
  - pose proof (annotate_results_keeps st2) as K. cbv zeta in K.
    destruct (annotate_results p st2) as [[[]|e] st3]; [|discriminate].
    cbn [snd] in K. destruct K as [Kc [Kp [Ka [Km [Kt Kl]]]]].
    assert (M3 : mode st3 = mode st) by congruence.
    rewrite <- M3.
    destruct (mode st3) eqn:E3; intro H; injection H as <-; exists a; simpl;
      rewrite ?app_nil_r; repeat split; congruence.
  - intro H. injection H as <-. exists a. simpl.
    repeat split; congruence.
Qed.

(** What a step that raises has done: it has scheduled nothing, and either
    recorded nothing (the radio or the spectrum raised) or recorded its point
    (the annotation raised). *)
Lemma update_raise (st st' : State Radio) (e : PyExc) :
  update p st = (Raise e, st') ->
  timers st' = timers st /\ mode st' = mode st /\
  ((ph_hist st' = ph_hist st /\ amp_hist st' = amp_hist st /\
    cur_phase st' = cur_phase st) \/
   (exists a,
      ph_hist st' = ph_hist st ++ [cur_phase st] /\
      amp_hist st' = amp_hist st ++ [a] /\
      cur_phase st' = cur_phase st + phase_step p)).
Proof.
  rewrite update_unfold.
  destruct (radio_only_acquire (cur_phase st) st) as [Same _].
  destruct (acquire (cur_phase st) st) as [[samples|e0] st1] eqn:Ea;
    simpl in Same; destruct Same as [Sc [Sp [Sa [Sm [Sg St]]]]].
  2:{ intro H. injection H as _ <-. repeat split; try assumption.
      left. repeat split; assumption. }
  destruct (Spectral.spectrum p samples) as [r|e0].
  2:{ intro H. injection H as _ <-. repeat split; try assumption.
      left. repeat split; assumption. }
  cbv zeta.
  set (a := 20 * np_log10 (snd r)).
  set (st2 := set_cur_phase _ _).
  assert (F : ph_hist st2 = ph_hist st ++ [cur_phase st] /\
              amp_hist st2 = amp_hist st ++ [a] /\
              cur_phase st2 = cur_phase st + phase_step p /\
              mode st2 = mode st /\ timers st2 = timers st).
  { subst st2. simpl. repeat split; congruence. }
  destruct F as [Fp [Fa [Fc [Fm Ft]]]].
  destruct (Qltb (phase_stop p) (cur_phase st2)).
  - pose proof (annotate_results_keeps st2) as K. cbv zeta in K.
    destruct (annotate_results p st2) as [[[]|e0] st3].
    + destruct (mode st3); discriminate.
    + cbn [snd] in K. destruct K as [Kc [Kp [Ka [Km [Kt Kl]]]]].
      intro H. injection H as _ <-.
      split; [congruence|]. split; [congruence|].
      right. exists a. repeat split; congruence.
  - discriminate.
Qed.

(** A failing radio makes the step fail with the radio's exception. *)
Lemma update_radio_raises (st : State Radio) (e : PyExc) :
  fst (acquire (cur_phase st) st) = Raise e ->
  update p st = (Raise e, snd (acquire (cur_phase st) st)).
Proof.
  intro H. rewrite update_unfold.
  destruct (acquire (cur_phase st) st) as [[samples|e0] st1];
    simpl in H; [discriminate|].
  injection H as ->. reflexivity.
Qed.

(** With no timer pending the event loop returns at once. *)
Lemma run_idle (fuel : nat) (st : State Radio) :
  timers st = [] -> run p fuel st = (Ok tt, st).
Proof.
  intro H. destruct fuel as [|fuel]; cbn [run]; [reflexivity|].
  rewrite H. reflexivity.
Qed.

(** With a timer pending the event loop fires it and goes on, also when the
    callback raised. *)
Lemma run_step (fuel : nat) (st : State Radio) :
  timers st <> [] ->
  run p (S fuel) st
  = match fire p st with
    | (Ok _, st') => run p fuel st'
    | (Raise e, st') => (Raise e, snd (run p fuel st'))
    end.
Proof.
  intro H. cbn [run]. destruct (timers st); [congruence|]. reflexivity.
Qed.

(** *** What the device has been through *)

Lemma rx_times_add (n m : nat) (r : Radio) :
  rx_times (n + m) r = rx_times m (rx_times n r).
Proof.
  revert r. induction n as [|n IH]; intro r; [reflexivity|].
  cbn [Nat.add rx_times]. apply IH.
Qed.

Lemma flush_radio (n : nat) :
  forall st st1 : State Radio,
    flush n st = (Ok tt, st1) -> radio st1 = rx_times n (radio st).
Proof.
  induction n as [|n IH]; intros st st1 H.
  - injection H as <-. reflexivity.
  - cbn [flush] in H. unfold bind, sdr_rx, call in H.
    destruct (rx (radio st)) as [[a|e] rd] eqn:E; [|discriminate].
    apply IH in H. cbn [rx_times]. rewrite E. exact H.
Qed.

(** A capture that succeeded has called [tx_destroy_buffer], then [tx] with
    the phase it was given, then [rx] 22 times, on the device itself. *)
Lemma acquire_radio (phase : Q) (st st1 : State Radio) (samples : list C) :
  acquire phase st = (Ok samples, st1) ->
  radio st1 = radio_after_step phase (radio st).
Proof.
  unfold acquire, bind, sdr_tx_destroy_buffer, sdr_tx, sdr_rx, call, ret.
  intro H.
  destruct (tx_destroy_buffer (radio st)) as [[[]|e] r1] eqn:E1;
    [|discriminate].
  cbn [radio set_radio] in H.
  destruct (tx phase r1) as [[[]|e] r2] eqn:E2; [|discriminate].
  destruct (flush 20 _) as [[[]|e] st3] eqn:E3; [|discriminate].
  apply flush_radio in E3. cbn [radio set_radio] in E3.
  destruct (rx (radio st3)) as [[a|e] r4] eqn:E4; [|discriminate].
  cbn [radio set_radio] in H.
  destruct (rx r4) as [[b|e] r5] eqn:E5; [|discriminate].
  injection H as _ <-. cbn [radio set_radio].
  unfold radio_after_step. rewrite E1. cbn [snd]. rewrite E2. cbn [snd].
  change 22%nat with (20 + 2)%nat. rewrite rx_times_add, <- E3.
  cbn [rx_times]. rewrite E4. cbn [snd]. rewrite E5. reflexivity.
Qed.

Lemma annotate_results_radio (st : State Radio) :
  radio (snd (annotate_results p st)) = radio st.
Proof.
  unfold annotate_results.
  destruct (Annotate.estimate p (ph_hist st) (amp_hist st)) as [[s|]|e];
    reflexivity.
Qed.

(** A step that returns has done so to the device, with the phase it then
    records. *)
Lemma update_radio (st st' : State Radio) :
  update p st = (Ok tt, st') ->
  radio st' = radio_after_step (cur_phase st) (radio st).
Proof.
  rewrite update_unfold.
  destruct (acquire (cur_phase st) st) as [[samples|e] st1] eqn:Ea;
    [|discriminate].
  apply acquire_radio in Ea.
  destruct (Spectral.spectrum p samples) as [r|e]; [|discriminate].
  cbv zeta.
  set (st2 := set_cur_phase _ _).
  assert (R2 : radio st2 = radio st1) by reflexivity.
  destruct (Qltb (phase_stop p) (cur_phase st2)).
  - pose proof (annotate_results_radio st2) as K.
    destruct (annotate_results p st2) as [[[]|e] st3]; [|discriminate].
    cbn [snd] in K.
    destruct (mode st3); intro H; injection H as <-; cbn [radio set_timers];
      congruence.
  - intro H. injection H as <-. cbn [radio set_timers]. congruence.
Qed.

End StepFacts.

(** ** Claims about single steps *)

Section StepClaims.
Import Num Np Sweep Lqa.
Local Open Scope Q_scope.
Context {Radio : Type} {port : RadioPort Radio} {np : NumPy}.
Variable p : Params.

(** C9.  In every state the program can reach the two histories have the
    same length; and a step that completes appends one phase and one
    amplitude, and has left the device in the state that
    [tx_destroy_buffer], one [tx] with that very phase as offset, and 22
    reads lead to. *)
Theorem histories_stay_aligned :
  (forall st : State Radio,
     reachable p st -> length (ph_hist st) = length (amp_hist st)) /\
  (forall st st' : State Radio,
     update p st = (Ok tt, st') ->
     exists a,
       ph_hist st' = ph_hist st ++ [cur_phase st] /\
       amp_hist st' = amp_hist st ++ [a] /\
       radio st' = radio_after_step (cur_phase st) (radio st) /\
       radio_log st' =
         radio_log st ++ CmdTxDestroy :: CmdTx (cur_phase st) :: repeat CmdRx 22).
Proof.
  split.
  - intros st R. induction R as [r|st ev R IH]; [reflexivity|].
    destruct ev; cbn [handle]; try reflexivity.
    unfold fire. destruct (timers st) as [|[delay cb] rest]; [exact IH|].
    destruct cb; [|reflexivity].
    destruct (update p (set_timers rest st)) as [[[]|e] st'] eqn:U; cbn [snd].
    + destruct (update_ok p _ U) as [a [Hp [Ha _]]].
      rewrite Hp, Ha, !length_app. simpl. rewrite IH. reflexivity.
    + destruct (update_raise p _ U) as [_ [_ [[Hp [Ha _]]|[a [Hp [Ha _]]]]]].
      * rewrite Hp, Ha. exact IH.
      * rewrite Hp, Ha, !length_app. simpl. rewrite IH. reflexivity.
  - intros st st' U. destruct (update_ok p _ U) as [a [Hp [Ha [_ [_ [Hl _]]]]]].
    exists a. split; [exact Hp|]. split; [exact Ha|].
    split; [exact (update_radio p _ U)|exact Hl].
Qed.

(** C3 (as the script behaves).  When the calls on the radio of the step
    about to fire raise [e], the step raises [e]: the exception leaves the
    callback, and the event loop reports it.  No point is recorded, the phase
    is not advanced, mode and annotation are as they were, and the step
    schedules nothing: the timers pending besides it are all that is left.
    The loop goes on with those -- its later states are the ones it reaches
    from the state the failed step left -- so the sweep is over exactly when
    there are none. *)
Theorem radio_failure_aborts_step
  (st : State Radio) (delay : Z) (rest : list (Z * Callback)) (e : PyExc) :
  timers st = (delay, CbUpdate) :: rest ->
  fst (acquire (cur_phase st) (set_timers rest st)) = Raise e ->
  exists st',
    fire p st = (Raise e, st') /\
    ph_hist st' = ph_hist st /\ amp_hist st' = amp_hist st /\
    cur_phase st' = cur_phase st /\ mode st' = mode st /\
    gfx st' = gfx st /\ timers st' = rest /\
    (forall fuel,
       run p (S fuel) st = (Raise e, snd (run p fuel st'))) /\
    (rest = [] -> forall fuel, run p (S fuel) st = (Raise e, st')).
Proof.
  intros Ht Hr.
  set (st0 := set_timers rest st) in *.
  assert (F : fire p st = (Raise e, snd (acquire (cur_phase st) st0))).
  { unfold fire. rewrite Ht. fold st0.
    exact (update_radio_raises p st0 Hr). }
  exists (snd (acquire (cur_phase st) st0)).
  destruct (radio_only_acquire (cur_phase st) st0) as [Same _].
  destruct Same as [Sc [Sp [Sa [Sm [Sg St]]]]].
  assert (Step : forall fuel,
            run p (S fuel) st
            = (Raise e, snd (run p fuel (snd (acquire (cur_phase st) st0))))).
  { intro fuel. rewrite run_step by (rewrite Ht; discriminate).
    rewrite F. reflexivity. }
  split; [exact F|].
  split; [exact Sp|]. split; [exact Sa|]. split; [exact Sc|].
  split; [exact Sm|]. split; [exact Sg|]. split; [exact St|].
  split; [exact Step|].
  intros E fuel. rewrite Step, run_idle; [reflexivity|].
  rewrite St. exact E.
Qed.

End StepClaims.

Lemma histories_stay_aligned_witness :
  length (ph_hist recording_after_first_step)
  = length (amp_hist recording_after_first_step) /\
  exists a,
    ph_hist (snd (Sweep.update (np := plain_numpy) scenario1_params
                    recording_scenario1))
    = ph_hist recording_scenario1 ++ [cur_phase recording_scenario1] /\
    amp_hist (snd (Sweep.update (np := plain_numpy) scenario1_params
                     recording_scenario1))
    = amp_hist recording_scenario1 ++ [a] /\
    radio (snd (Sweep.update (np := plain_numpy) scenario1_params
                  recording_scenario1))
    = Sweep.radio_after_step (cur_phase recording_scenario1)
        (radio recording_scenario1) /\
    radio_log (snd (Sweep.update (np := plain_numpy) scenario1_params
                      recording_scenario1))
    = radio_log recording_scenario1
      ++ CmdTxDestroy :: CmdTx (cur_phase recording_scenario1)
           :: repeat CmdRx 22.
Proof.
  destruct (@histories_stay_aligned Recording recording_port plain_numpy
              scenario1_params) as [Inv Step].
  split.
  - apply Inv. unfold recording_after_first_step.
    apply Sweep.reach_event, Sweep.reach_event, Sweep.reach_init.
  - apply Step. vm_compute. reflexivity.
Defined.

(** On the recording radio the device itself has, after the first step of
    scenario 1, one transmission on record, with the offset -10 that the
    step appended to the phases. *)
Example first_step_on_record :
  ph_hist (snd (Sweep.update (np := plain_numpy) scenario1_params
                  recording_scenario1)) = [-10]%Q /\
  radio (snd (Sweep.update (np := plain_numpy) scenario1_params
                recording_scenario1))
  = CmdTxDestroy :: CmdTx (-10)%Q :: repeat CmdRx 22.
Proof. split; vm_compute; reflexivity. Qed.

Lemma radio_failure_aborts_step_witness :
  exists st',
    Sweep.fire (np := plain_numpy) script_params failing_step
    = (Raise (RadioError 110), st') /\
    ph_hist st' = ph_hist failing_step /\
    amp_hist st' = amp_hist failing_step /\
    cur_phase st' = cur_phase failing_step /\
    mode st' = mode failing_step /\ gfx st' = gfx failing_step /\
    timers st' = [] /\
    (forall fuel,
       Sweep.run (np := plain_numpy) script_params (S fuel) failing_step
       = (Raise (RadioError 110),
          snd (Sweep.run (np := plain_numpy) script_params fuel st'))) /\
    (@nil (Z * Callback) = [] ->
     forall fuel,
       Sweep.run (np := plain_numpy) script_params (S fuel) failing_step
       = (Raise (RadioError 110), st')).
Proof.
  apply (@radio_failure_aborts_step Scripted scripted_port plain_numpy
           script_params failing_step 0%Z [] (RadioError 110)).
  - reflexivity.
  - vm_compute. reflexivity.
Defined.

(** C3 (the claim as stated fails).  Two presses of One Shot leave two
    steps pending.  The first read of the first step fails: the step raises
    and records nothing -- but the other step is still pending, fires next,
    succeeds, records the phase -10 and schedules its successor, and the
    sweep runs to its end with the phases -10, 0, 10. *)
Lemma radio_failure_sweep_goes_on :
  timers failing_then_steady = [(0%Z, CbUpdate); (0%Z, CbUpdate)] /\
  fst (Sweep.fire (np := plain_numpy) scenario1_params failing_then_steady)
  = Raise (RadioError 5) /\
  ph_hist after_failed_step = [] /\
  timers after_failed_step = [(0%Z, CbUpdate)] /\
  fst (Sweep.fire (np := plain_numpy) scenario1_params after_failed_step)
  = Ok tt /\
  ph_hist (snd (Sweep.fire (np := plain_numpy) scenario1_params
                  after_failed_step)) = [-10]%Q /\
  timers (snd (Sweep.fire (np := plain_numpy) scenario1_params
                 after_failed_step)) = [(40%Z, CbUpdate)] /\
  ph_hist (snd (Sweep.run (np := plain_numpy) scenario1_params 10
                  failing_then_steady)) = [-10; 0; 10]%Q.
Proof.
  split; [reflexivity|].
  split; [vm_compute; reflexivity|].
  split; [vm_compute; reflexivity|].
  split; [vm_compute; reflexivity|].
  split; [vm_compute; reflexivity|].
  split; [vm_compute; reflexivity|].
  split; vm_compute; reflexivity.
Qed.

(** ** The capture and its mean *)

(** C2 (as the script behaves).  After the 20 flushed reads the step reads
    twice more: the first capture is the block that is analysed, the second
    one only supplies the mean.  With a first capture of mean 1 and a second
    of mean 3 the block handed on is constant at -2/2048 -- its own mean is
    not removed -- whereas removing the mean of the capture itself would give
    zeros. *)
Theorem dc_offset_taken_from_next_capture :
  exists samples st',
    Sweep.acquire (cur_phase two_level_state) two_level_state
    = (Ok samples, st') /\
    rx_count (radio_log st') = 22%nat /\ radio st' = [] /\
    Num.same_samples samples
      (map (fun z =>
              Num.Cdivq (Num.Csub z (Num.Cmean capture_high)) (2 ^ 11))
           capture_low) = true /\
    Num.same_samples samples [(-1 # 1024, 0); (-1 # 1024, 0)]%Q = true /\
    Num.same_samples samples (dc_removed_normalised capture_low) = false /\
    Num.same_samples (dc_removed_normalised capture_low) [(0, 0); (0, 0)]%Q
    = true.
Proof.
  eexists. eexists. split; [vm_compute; reflexivity|].
  repeat split; vm_compute; reflexivity.
Qed.

(** ** Whole sweeps *)

Section SweepRuns.
Import Num Np Sweep Lqa.
Local Open Scope Q_scope.
Context {Radio : Type} {port : RadioPort Radio} {np : NumPy}.
Variable p : Params.



Lemma sweep_phases_S (k : nat) :
  sweep_phases p (S k) = sweep_phases p k ++ [phase_at p k].
Proof.
  unfold sweep_phases. rewrite seq_S, map_app. reflexivity.
Qed.

Lemma sweep_phases_length (n : nat) : length (sweep_phases p n) = n.
Proof. unfold sweep_phases. rewrite length_map, length_seq. reflexivity. Qed.


(** A step of a sweep under way records the next phase and leaves the
    timers [scheduled_after] prescribes. *)
Lemma fire_sweeping (k : nat) (st st' : State Radio) :
  sweeping p k st -> fire p st = (Ok tt, st') ->
  mode st' = mode st /\ ph_hist st' = sweep_phases p (S k) /\
  length (amp_hist st') = S k /\ cur_phase st' = phase_at p (S k) /\
  timers st' = scheduled_after p (mode st) (phase_at p (S k)).
Proof.
  intros [[delay Ht] [Hp [Ha Hc]]] F.
  unfold fire in F. rewrite Ht in F.
  destruct (update_ok p _ F) as [a [Up [Ua [Uc [Um [_ Ut]]]]]].
  cbn [set_timers ph_hist amp_hist cur_phase mode timers] in *.
  rewrite sweep_phases_S. cbn [phase_at].
  split; [exact Um|]. split; [congruence|].
  split; [rewrite Ua, length_app; simpl; lia|].
  split; [congruence|].
  rewrite Ut, Hc. reflexivity.
Qed.


(** In continuous mode the recorded phases are, after any number of events,
    the first phases of one sweep, with as many amplitudes. *)
Lemma run_continuous (fuel : nat) :
  forall st : State Radio,
    mode st = continuous_mode ->
    (exists k, sweeping p k st) \/ (exists k, restarting p k st) ->
    exists k,
      ph_hist (snd (run p fuel st)) = sweep_phases p k /\
      length (amp_hist (snd (run p fuel st))) = k.
Proof.
  induction fuel as [|fuel IH]; intros st Hm Hst.
  - cbn [run ret snd].
    destruct Hst as [[k [_ [Hp [Ha _]]]]|[k [_ [Hp Ha]]]]; exists k; split;
      assumption.
  - destruct Hst as [[k Sw]|[k [[delay Ht] [Hp Ha]]]].
    + pose proof Sw as [[delay Ht] [Hp [Ha Hc]]].
      rewrite run_step by (rewrite Ht; discriminate).
      destruct (fire p st) as [[[]|e] st1] eqn:F.
      * destruct (fire_sweeping Sw F) as [Fm [Fp [Fa [Fc Ft]]]].
        apply IH; [congruence|].
        unfold scheduled_after in Ft. rewrite Hm in Ft.
        destruct (Qltb (phase_stop p) (phase_at p (S k))).
        -- right. exists (S k). split; [eexists; exact Ft|]. split; assumption.
        -- left. exists (S k). split; [eexists; exact Ft|].
           repeat split; assumption.
      * cbn [snd]. unfold fire in F. rewrite Ht in F.
        destruct (update_raise p _ F)
          as [Ut [_ [[Up [Ua _]]|[a [Up [Ua _]]]]]];
          cbn [set_timers ph_hist amp_hist cur_phase timers] in *;
          rewrite (run_idle p fuel st1 Ut); cbn [snd].
        -- exists k. split; congruence.
        -- exists (S k). rewrite sweep_phases_S. split; [congruence|].
           rewrite Ua, length_app. simpl. lia.
    + rewrite run_step by (rewrite Ht; discriminate).
      assert (F : fire p st
                  = start_sweep p (set_timers [] st)).
      { unfold fire. rewrite Ht. reflexivity. }
      rewrite F, start_sweep_unfold.
      apply IH; [exact Hm|].
      left. exists 0%nat. split; [eexists; reflexivity|].
      repeat split.
Qed.




(** C8.  In continuous mode, when the step that takes the phase beyond the
    stop has completed, the only pending timer is the restart; when it fires
    both histories are empty, the phase is back at the start and the first
    step of the new sweep is pending; and from then on the recorded phases
    are always the first phases of one sweep from the start, with as many
    amplitudes. *)
Theorem continuous_restart_clears (st st1 : State Radio) (delay : Z) :
  mode st = continuous_mode -> timers st = [(delay, CbUpdate)] ->
  phase_stop p < cur_phase st + phase_step p ->
  fire p st = (Ok tt, st1) ->
  timers st1 = [(update_interval p, CbStartSweep)] /\
  exists st2,
    fire p st1 = (Ok tt, st2) /\
    ph_hist st2 = [] /\ amp_hist st2 = [] /\
    cur_phase st2 = phase_start p /\ mode st2 = continuous_mode /\
    timers st2 = [(0%Z, CbUpdate)] /\
    forall fuel, exists k,
      ph_hist (snd (run p fuel st2)) = sweep_phases p k /\
      length (amp_hist (snd (run p fuel st2))) = k.
Proof.
  intros Hm Ht Hlast F.
  assert (T1 : timers st1 = [(update_interval p, CbStartSweep)] /\
               mode st1 = continuous_mode).
  { unfold fire in F. rewrite Ht in F.
    destruct (update_ok p _ F) as [a [_ [_ [_ [Um [_ Ut]]]]]].
    cbn [set_timers cur_phase mode timers] in *.
    unfold scheduled_after in Ut. apply Qltb_lt in Hlast.
    rewrite Hlast, Hm in Ut. split; [exact Ut|congruence]. }
  destruct T1 as [T1 M1]. split; [exact T1|].
  exists (snd (start_sweep p (set_timers [] st1))).
  assert (F1 : fire p st1 = start_sweep p (set_timers [] st1)).
  { unfold fire. rewrite T1. reflexivity. }
  split; [rewrite F1; reflexivity|].
  unfold start_sweep, singleShot. cbn [fst snd].
  split; [reflexivity|]. split; [reflexivity|]. split; [reflexivity|].
  split; [exact M1|]. split; [reflexivity|].
  intro fuel. apply run_continuous; [exact M1|].
  left. exists 0%nat. split; [eexists; reflexivity|]. repeat split.
Qed.

End SweepRuns.



(** Why the limits and the step are taken as integers.  With the double
    nearest 7.2 as step, the sweep from -180 to 180 records 51 phases, the
    second of which is not the first plus the step and the last of which is
    179.99999999999991; with the same step in exact arithmetic the 51st
    phase would lie beyond 180. *)
Section RoundedStep.
Import PrimFloat.

Example rounded_step_is_not_arithmetic :
  exists step,
    length (Sweep64.phases 100 (-180) Sweep64.step_7_2 180) = 51%nat /\
    nth 50 (Sweep64.phases 100 (-180) Sweep64.step_7_2 180) 0%float
    = 0x1.67ffffffffffdp+7%float /\
    (nth 1 (Sweep64.phases 100 (-180) Sweep64.step_7_2 180) 0
     - nth 0 (Sweep64.phases 100 (-180) Sweep64.step_7_2 180) 0
     =? Sweep64.step_7_2)%float = false /\
    Hpbw64.to_Q Sweep64.step_7_2 = Some step /\
    (180 < -180 + 50 * step)%Q.
Proof.
  eexists.
  split; [vm_compute; reflexivity|].
  split; [vm_compute; reflexivity|].
  split; [vm_compute; reflexivity|].
  split; [vm_compute; reflexivity|].
  vm_compute. reflexivity.
Qed.

End RoundedStep.

(** Scenario 1 of the specification: start -10, stop 10, step 10 records
    the phases -10, 0, 10 in that order. *)
Example scenario1_three_points :
  Sweep.sweep_once (np := plain_numpy) scenario1_params 4 scenario1_start
  = (Ok tt, snd (Sweep.sweep_once (np := plain_numpy) scenario1_params 4
                   scenario1_start)) /\
  ph_hist (snd (Sweep.sweep_once (np := plain_numpy) scenario1_params 4
                  scenario1_start)) = [-10; 0; 10]%Q /\
  timers (snd (Sweep.sweep_once (np := plain_numpy) scenario1_params 4
                 scenario1_start)) = [].
Proof.
  split; [vm_compute; reflexivity|].
  split; vm_compute; reflexivity.
Qed.

(** The script's own sweep records 181 phases, from -180 to 180. *)
Example script_sweep_181_points :
  fst (Sweep.sweep_once (np := plain_numpy) script_params 200 script_start)
  = Ok tt /\
  length (ph_hist (snd (Sweep.sweep_once (np := plain_numpy) script_params
                          200 script_start))) = 181%nat /\
  hd 0%Q (ph_hist (snd (Sweep.sweep_once (np := plain_numpy) script_params
                          200 script_start))) = (-180)%Q /\
  last (ph_hist (snd (Sweep.sweep_once (np := plain_numpy) script_params
                        200 script_start))) 0%Q = 180%Q.
Proof.
  split; [vm_compute; reflexivity|].
  split; [vm_compute; reflexivity|].
  split; vm_compute; reflexivity.
Qed.

Lemma continuous_restart_clears_witness :
  timers (snd (Sweep.fire (np := plain_numpy) scenario1_params
                 continuous_last_step))
  = [(update_interval scenario1_params, CbStartSweep)] /\
  exists st2,
    Sweep.fire (np := plain_numpy) scenario1_params
      (snd (Sweep.fire (np := plain_numpy) scenario1_params
              continuous_last_step))
    = (Ok tt, st2) /\
    ph_hist st2 = [] /\ amp_hist st2 = [] /\
    cur_phase st2 = phase_start scenario1_params /\
    mode st2 = continuous_mode /\
    timers st2 = [(0%Z, CbUpdate)] /\
    forall fuel, exists k,
      ph_hist (snd (Sweep.run (np := plain_numpy) scenario1_params fuel st2))
      = Sweep.sweep_phases scenario1_params k /\
      length (amp_hist (snd (Sweep.run (np := plain_numpy) scenario1_params
                               fuel st2))) = k.
Proof.
  apply (@continuous_restart_clears Scripted scripted_port plain_numpy
           scenario1_params continuous_last_step _ 40%Z).
  - reflexivity.
  - reflexivity.
  - reflexivity.
  - vm_compute. reflexivity.
Defined.

(* ================================================================== *)
(** * Part III: further properties of the script *)
(* ================================================================== *)

(** ** The spectrum of one capture (lines 193-206) *)

Section SpectralFacts.
Import Num Np Spectral Lqa.

Lemma fftshift_length {A} (l : list A) : length (fftshift l) = length l.
Proof.
  unfold fftshift. rewrite length_app, length_skipn, length_firstn.
  pose proof (Nat.Div0.div_le_upper_bound (length l) 2 (length l)). lia.
Qed.

Lemma fftshift_map {A B} (f : A -> B) (l : list A) :
  fftshift (map f l) = map f (fftshift l).
Proof.
  unfold fftshift. rewrite length_map, map_app, skipn_map, firstn_map.
  reflexivity.
Qed.

Lemma fftshift_In {A} (l : list A) (x : A) : In x (fftshift l) <-> In x l.
Proof.
  unfold fftshift. set (k := (length l - length l / 2)%nat).
  rewrite in_app_iff. rewrite <- (firstn_skipn k l) at 3.
  rewrite in_app_iff. tauto.
Qed.

(** [np.fft.fftshift] puts at position [i] the element that stood
    [ceil(n/2)] places further on, cyclically. *)
Lemma fftshift_nth {A} (l : list A) (i : nat) (d : A) :
  (i < length l)%nat ->
  nth i (fftshift l) d
  = nth ((i + (length l - length l / 2)) mod length l) l d.
Proof.
  intro Hi.
  unfold fftshift. set (n := length l) in *. set (k := (n - n / 2)%nat).
  assert (Hk : (k <= n)%nat) by (unfold k; lia).
  assert (Hs : length (skipn k l) = (n - k)%nat) by apply length_skipn.
  destruct (Nat.lt_ge_cases i (n - k)) as [Lt|Ge].
  - rewrite app_nth1 by lia. rewrite nth_skipn.
    rewrite Nat.mod_small by lia. f_equal. lia.
  - rewrite app_nth2 by lia. rewrite Hs, nth_firstn.
    assert (E : (i - (n - k) <? k)%nat = true) by (apply Nat.ltb_lt; lia).
    rewrite E. f_equal.
    apply (Nat.mod_unique (i + k) n 1); lia.
Qed.

(** The bins summed around the peak (line 202): the window holds the peak
    bin, at most [2 * win + 1] bins, and exactly the bins from
    [idx_pk - win] (not below 0) to [idx_pk + win] (not beyond the last), in
    their order; at either end of the spectrum it is cut short, it does not
    wrap around. *)
Theorem integration_window_is_clamped
  {A} (mag : list A) (idx_pk win : nat) (d : A) :
  (idx_pk < length mag)%nat ->
  length (slice mag (Nat.max 0 (idx_pk - win)) (idx_pk + win + 1))
  = (Nat.min (idx_pk + win + 1) (length mag) - (idx_pk - win))%nat /\
  (1 <= length (slice mag (Nat.max 0 (idx_pk - win)) (idx_pk + win + 1))
   <= 2 * win + 1)%nat /\
  nth (idx_pk - (idx_pk - win))
      (slice mag (Nat.max 0 (idx_pk - win)) (idx_pk + win + 1)) d
  = nth idx_pk mag d /\
  forall j,
    (j < length (slice mag (Nat.max 0 (idx_pk - win)) (idx_pk + win + 1)))%nat ->
    nth j (slice mag (Nat.max 0 (idx_pk - win)) (idx_pk + win + 1)) d
    = nth (idx_pk - win + j) mag d.
Proof.
  intro Hi. unfold slice. rewrite Nat.max_0_l.
  set (a := (idx_pk - win)%nat).
  assert (L : length (firstn (idx_pk + win + 1 - a) (skipn a mag))
              = (Nat.min (idx_pk + win + 1) (length mag) - a)%nat).
  { rewrite length_firstn, length_skipn. lia. }
  assert (E : forall j,
             (j < length (firstn (idx_pk + win + 1 - a) (skipn a mag)))%nat ->
             nth j (firstn (idx_pk + win + 1 - a) (skipn a mag)) d
             = nth (a + j) mag d).
  { intros j Hj. rewrite L in Hj. rewrite nth_firstn.
    assert (T : (j <? idx_pk + win + 1 - a)%nat = true)
      by (apply Nat.ltb_lt; lia).
    rewrite T. apply nth_skipn. }
  split; [exact L|]. split; [rewrite L; lia|]. split; [|exact E].
  rewrite E by (rewrite L; lia). f_equal. lia.
Qed.

Lemma integration_window_is_clamped_witness :
  length (slice [5; 9; 2; 1]%nat (Nat.max 0 (1 - 10)) (1 + 10 + 1))
  = (Nat.min (1 + 10 + 1) 4 - (1 - 10))%nat /\
  (1 <= length (slice [5; 9; 2; 1]%nat (Nat.max 0 (1 - 10)) (1 + 10 + 1))
   <= 2 * 10 + 1)%nat /\
  nth (1 - (1 - 10))
      (slice [5; 9; 2; 1]%nat (Nat.max 0 (1 - 10)) (1 + 10 + 1)) 0%nat
  = nth 1 [5; 9; 2; 1]%nat 0%nat /\
  forall j,
    (j < length (slice [5; 9; 2; 1]%nat (Nat.max 0 (1 - 10))
                       (1 + 10 + 1)))%nat ->
    nth j (slice [5; 9; 2; 1]%nat (Nat.max 0 (1 - 10)) (1 + 10 + 1)) 0%nat
    = nth (1 - 10 + j) [5; 9; 2; 1]%nat 0%nat.
Proof.
  apply (@integration_window_is_clamped nat [5; 9; 2; 1]%nat 1 10 0%nat).
  simpl. lia.
Defined.

End SpectralFacts.

Section SpectrumTotal.
Import Num Np Spectral Lqa.
Local Open Scope Q_scope.
Context {np : NumPy}.
Variable p : Params.

(** Provided the NumPy functions return arrays of the lengths NumPy
    documents, the analysis of a capture raises exactly when the capture is
    empty ([ValueError]); otherwise the peak frequency it returns is the
    frequency of a bin of the (unshifted) transform whose magnitude no other
    bin exceeds. *)
Theorem peak_frequency_is_of_largest_bin (samples : list C) :
  (forall n, length (np_hanning n) = n) ->
  (forall l, length (np_fft l) = length l) ->
  (forall n dt, length (np_fftfreq n dt) = n) ->
  (samples = [] -> spectrum p samples = Raise ValueError) /\
  (samples <> [] ->
   exists j pk_f pwr_lin,
     spectrum p samples = Ok (pk_f, pwr_lin) /\
     (j < length samples)%nat /\
     pk_f = nth j (np_fftfreq (length samples) (1 / samp_rate p)) 0 /\
     forall i, (i < length samples)%nat ->
       np_abs
         (nth i
            (map (fun z => Cdivq z (Qsum (np_hanning (length samples))))
               (np_fft (map (fun zw => Cscale (fst zw) (snd zw))
                          (combine samples (np_hanning (length samples))))))
            Czero)
       <= np_abs
            (nth j
               (map (fun z => Cdivq z (Qsum (np_hanning (length samples))))
                  (np_fft (map (fun zw => Cscale (fst zw) (snd zw))
                             (combine samples
                                (np_hanning (length samples))))))
               Czero)).
Proof.
  intros Hwin Hfft Hfreq. unfold spectrum.
  set (F := map (fun z => Cdivq z (Qsum (np_hanning (length samples)))) _).
  set (mag := map np_abs (fftshift F)).
  set (bins := np_fftfreq (length samples) (1 / samp_rate p)).
  set (n := length samples).
  assert (LF : length F = n).
  { unfold F. rewrite length_map, Hfft, length_map, length_combine, Hwin.
    apply Nat.min_id. }
  assert (Lm : length mag = n)
    by (unfold mag; rewrite length_map, fftshift_length; exact LF).
  assert (Lb : length bins = n) by apply Hfreq.
  split.
  - intro E. unfold n in Lm. rewrite E in Lm.
    destruct mag; [reflexivity|discriminate].
  - intro Hne.
    assert (Hn : (0 < n)%nat)
      by (unfold n; destruct samples; [congruence|simpl; lia]).
    destruct (@argmax_in_range mag) as [idx [Hidx Hlt]].
    { intro E. rewrite E in Lm. simpl in Lm. lia. }
    destruct (argmax_first_max mag Hidx) as [Hmax _].
    rewrite Hidx. cbn [ebind].
    rewrite (get_nth (fftshift bins) 0) by (rewrite fftshift_length; lia).
    cbn [ebind].
    set (j := ((idx + (n - n / 2)) mod n)%nat).
    assert (Hj : (j < n)%nat) by (apply Nat.mod_upper_bound; lia).
    assert (Eidx : nth idx mag 0 = np_abs (nth j F Czero)).
    { unfold mag.
      rewrite (nth_indep _ 0 (np_abs Czero))
        by (rewrite length_map, fftshift_length; lia).
      rewrite map_nth, fftshift_nth by lia. rewrite LF. reflexivity. }
    exists j. eexists. eexists. split; [reflexivity|]. split; [exact Hj|].
    split.
    + rewrite fftshift_nth by lia. rewrite Lb. reflexivity.
    + intros i Hi. rewrite <- Eidx.
      assert (Hin : In (np_abs (nth i F Czero)) mag).
      { unfold mag. apply in_map. apply fftshift_In. apply nth_In. lia. }
      destruct (In_nth mag (np_abs (nth i F Czero)) 0 Hin) as [i' [Hi' Hv]].
      rewrite <- Hv. apply Hmax. exact Hi'.
Qed.

End SpectrumTotal.

Lemma peak_frequency_is_of_largest_bin_witness :
  (@nil Num.C = [] ->
   Spectral.spectrum (np := plain_numpy) script_params [] = Raise ValueError) /\
  ([(1, 0); (3, 0)]%Q <> @nil Num.C ->
   exists j pk_f pwr_lin,
     Spectral.spectrum (np := plain_numpy) script_params [(1, 0); (3, 0)]%Q
     = Ok (pk_f, pwr_lin) /\
     (j < length [(1, 0); (3, 0)]%Q)%nat /\
     pk_f = nth j (np_fftfreq (NumPy := plain_numpy)
                     (length [(1, 0); (3, 0)]%Q)
                     (1 / samp_rate script_params)) 0%Q /\
     forall i, (i < length [(1, 0); (3, 0)]%Q)%nat ->
       (np_abs (NumPy := plain_numpy)
          (nth i
             (map (fun z =>
                     Num.Cdivq z
                       (Num.Qsum (np_hanning (NumPy := plain_numpy)
                                    (length [(1, 0); (3, 0)]%Q))))
                (np_fft (NumPy := plain_numpy)
                   (map (fun zw => Num.Cscale (fst zw) (snd zw))
                      (combine [(1, 0); (3, 0)]%Q
                         (np_hanning (NumPy := plain_numpy)
                            (length [(1, 0); (3, 0)]%Q))))))
             Num.Czero)
        <= np_abs (NumPy := plain_numpy)
             (nth j
                (map (fun z =>
                        Num.Cdivq z
                          (Num.Qsum (np_hanning (NumPy := plain_numpy)
                                       (length [(1, 0); (3, 0)]%Q))))
                   (np_fft (NumPy := plain_numpy)
                      (map (fun zw => Num.Cscale (fst zw) (snd zw))
                         (combine [(1, 0); (3, 0)]%Q
                            (np_hanning (NumPy := plain_numpy)
                               (length [(1, 0); (3, 0)]%Q))))))
                Num.Czero))%Q).
Proof.
  assert (H1 : forall n, length (np_hanning (NumPy := plain_numpy) n) = n)
    by (intro n; apply repeat_length).
  assert (H2 : forall l, length (np_fft (NumPy := plain_numpy) l) = length l)
    by reflexivity.
  assert (H3 : forall n dt,
             length (np_fftfreq (NumPy := plain_numpy) n dt) = n)
    by (intros n dt; simpl; rewrite length_map, length_seq; reflexivity).
  split.
  - exact (proj1 (@peak_frequency_is_of_largest_bin plain_numpy script_params
                    [] H1 H2 H3)).
  - exact (proj2 (@peak_frequency_is_of_largest_bin plain_numpy script_params
                    [(1, 0); (3, 0)]%Q H1 H2 H3)).
Defined.

(** ** The estimator on histories of equal length (lines 117-149) *)

Section EstimatorFacts.
Import Num Np Hpbw Lqa.
Local Open Scope Q_scope.

(** The right bound is always the phase of a recorded sample: the last
    phase when no amplitude above the peak index is under the threshold,
    otherwise the phase of the first index above the peak index whose
    amplitude is under the threshold -- never a phase between two samples. *)
Theorem right_bound_is_a_sample (phases amps : list Q) :
  length phases = length amps -> (5 <= length amps)%nat ->
  exists s,
    crossings phases amps = Ok (Some s) /\
    (((forall j, (idx_max s < j < length amps)%nat ->
         half_db s <= nth j amps 0) /\
      right s = nth (length phases - 1) phases 0) \/
     (exists k, (idx_max s < k < length amps)%nat /\
        nth k amps 0 < half_db s /\
        (forall j, (idx_max s < j < k)%nat -> half_db s <= nth j amps 0) /\
        right s = nth k phases 0)).
Proof.
  intros Hlen H5.
  destruct (@crossings_computed phases amps Hlen H5)
    as [im [l [r [Him [_ [Hc [_ HR]]]]]]].
  eexists. split; [exact Hc|]. cbn [idx_max half_db right].
  destruct HR as [[Hall Hd]|[k [Hk [Hak [Hbetween Hv]]]]].
  - left. split; [|exact Hd]. intros j Hj. apply Hall. lia.
  - right. exists k. split; [lia|]. split; [exact Hak|].
    split; [|exact Hv]. intros j Hj. apply Hbetween. lia.
Qed.

Lemma right_bound_is_a_sample_witness :
  exists s,
    crossings scenario2_phases scenario2_amps = Ok (Some s) /\
    (((forall j, (idx_max s < j < length scenario2_amps)%nat ->
         half_db s <= nth j scenario2_amps 0) /\
      right s = nth (length scenario2_phases - 1) scenario2_phases 0) \/
     (exists k, (idx_max s < k < length scenario2_amps)%nat /\
        nth k scenario2_amps 0 < half_db s /\
        (forall j, (idx_max s < j < k)%nat ->
           half_db s <= nth j scenario2_amps 0) /\
        right s = nth k scenario2_phases 0)).
Proof.
  apply (@right_bound_is_a_sample scenario2_phases scenario2_amps).
  - reflexivity.
  - simpl. lia.
Defined.

Lemma estimate_ok (p : Params) (phases amps : list Q) :
  length phases = length amps ->
  exists r,
    Annotate.estimate p phases amps = Ok r /\
    (r = None <-> (length amps < 5)%nat).
Proof.
  intro Hlen. unfold Annotate.estimate.
  destruct (Nat.lt_ge_cases (length amps) 5) as [Lt|Ge].
  - exists None. split; [|tauto].
    unfold crossings. apply Nat.ltb_lt in Lt. rewrite Lt. reflexivity.
  - destruct (@crossings_computed phases amps Hlen Ge)
      as [im [l [r [_ [_ [Hc _]]]]]].
    rewrite Hc. cbn [ebind option_map]. eexists. split; [reflexivity|].
    split; [discriminate|lia].
Qed.

(** On histories of equal length the estimate never raises (no index is out
    of range), and it is the early return exactly when fewer than five
    samples are recorded. *)
Theorem estimate_never_raises (p : Params) (phases amps : list Q) :
  length phases = length amps ->
  exists r,
    Annotate.estimate p phases amps = Ok r /\
    (r = None <-> (length amps < 5)%nat).
Proof. apply estimate_ok. Qed.

Lemma estimate_never_raises_witness :
  exists r,
    Annotate.estimate script_params scenario2_phases scenario2_amps = Ok r /\
    (r = None <-> (length scenario2_amps < 5)%nat).
Proof.
  apply (@estimate_never_raises script_params scenario2_phases scenario2_amps).
  reflexivity.
Defined.

End EstimatorFacts.

(** ** Phase offset to angle (lines 60-64 and 144-149) *)

Section GeometryFacts.
Import BeamGeometry Lra.
Local Open Scope R_scope.

Lemma spatial_sine_range (phase lam d : R) :
  -1 <= spatial_sine phase lam d <= 1.
Proof. unfold spatial_sine. apply clip_range. Qed.

Lemma clip_opp (x : R) : clip (- x) (-1) 1 = - clip x (-1) 1.
Proof.
  unfold clip, Rmin, Rmax.
  repeat (destruct (Rle_dec _ _)); lra.
Qed.

Lemma clip_monotone (x y : R) : x <= y -> clip x (-1) 1 <= clip y (-1) 1.
Proof.
  intro H. unfold clip, Rmin, Rmax.
  repeat (destruct (Rle_dec _ _)); lra.
Qed.

Lemma asin_monotone (x y : R) :
  -1 <= x -> x <= y -> y <= 1 -> asin x <= asin y.
Proof.
  intros Hx Hxy Hy.
  pose proof (asin_bound x) as [Bx1 Bx2].
  pose proof (asin_bound y) as [By1 By2].
  apply sin_incr_0; try assumption.
  rewrite !sin_asin by lra. exact Hxy.
Qed.

Lemma degrees_monotone (a b : R) : a <= b -> degrees a <= degrees b.
Proof.
  intro H. unfold degrees.
  pose proof PI_RGT_0.
  assert (P : 0 < 180 / PI) by (apply Rdiv_lt_0_compat; lra).
  apply Rmult_le_compat_r; lra.
Qed.

Lemma raw_sine_monotone (x y lam d : R) :
  0 < lam -> 0 < d -> x <= y ->
  deg2rad x * lam / (2 * PI * d) <= deg2rad y * lam / (2 * PI * d).
Proof.
  intros Hl Hd Hxy. unfold deg2rad.
  pose proof PI_RGT_0.
  assert (K : 0 < PI / 180 * lam / (2 * PI * d)).
  { apply Rdiv_lt_0_compat.
    - apply Rmult_lt_0_compat; [apply Rdiv_lt_0_compat; lra | lra].
    - apply Rmult_lt_0_compat; lra. }
  replace (x * (PI / 180) * lam / (2 * PI * d))
    with (x * (PI / 180 * lam / (2 * PI * d))) by (field; lra).
  replace (y * (PI / 180) * lam / (2 * PI * d))
    with (y * (PI / 180 * lam / (2 * PI * d))) by (field; lra).
  apply Rmult_le_compat_r; lra.
Qed.

(** The conversion is odd: the opposite phase offset gives the opposite
    angle. *)
Theorem phase_to_angle_odd (phase lam d : R) :
  0 < lam -> 0 < d ->
  exists theta,
    phase_to_angle phase lam d = Some theta /\
    phase_to_angle (- phase) lam d = Some (- theta).
Proof.
  intros Hl Hd.
  pose proof (spatial_sine_range phase lam d) as Hs.
  exists (degrees (asin (spatial_sine phase lam d))).
  unfold phase_to_angle. rewrite (arcsin_defined Hs). split; [reflexivity|].
  assert (E : spatial_sine (- phase) lam d = - spatial_sine phase lam d).
  { unfold spatial_sine. rewrite <- clip_opp. f_equal.
    unfold deg2rad. field. pose proof PI_RGT_0. lra. }
  rewrite E. rewrite arcsin_defined by lra.
  cbn [option_map]. rewrite asin_opp. unfold degrees. f_equal. ring.
Qed.

Lemma phase_to_angle_odd_witness :
  exists theta,
    phase_to_angle 60 (1 / 8) (1 / 16) = Some theta /\
    phase_to_angle (- 60) (1 / 8) (1 / 16) = Some (- theta).
Proof.
  apply (@phase_to_angle_odd 60 (1 / 8) (1 / 16)); lra.
Defined.

Lemma phase_to_angle_le (phase1 phase2 lam d : R) :
  0 < lam -> 0 < d -> phase1 <= phase2 ->
  exists theta1 theta2,
    phase_to_angle phase1 lam d = Some theta1 /\
    phase_to_angle phase2 lam d = Some theta2 /\
    -90 <= theta1 /\ theta1 <= theta2 /\ theta2 <= 90.
Proof.
  intros Hl Hd H12.
  pose proof (spatial_sine_range phase1 lam d) as Hs1.
  pose proof (spatial_sine_range phase2 lam d) as Hs2.
  exists (degrees (asin (spatial_sine phase1 lam d))).
  exists (degrees (asin (spatial_sine phase2 lam d))).
  unfold phase_to_angle.
  rewrite (arcsin_defined Hs1), (arcsin_defined Hs2).
  split; [reflexivity|]. split; [reflexivity|].
  split; [apply degrees_quarter_turn, asin_bound|].
  split; [|apply degrees_quarter_turn, asin_bound].
  apply degrees_monotone, asin_monotone; try lra.
  unfold spatial_sine. apply clip_monotone, raw_sine_monotone; assumption.
Qed.

(** The conversion is monotone: a larger phase offset never gives a smaller
    angle. *)
Theorem phase_to_angle_monotone (phase1 phase2 lam d : R) :
  0 < lam -> 0 < d -> phase1 <= phase2 ->
  exists theta1 theta2,
    phase_to_angle phase1 lam d = Some theta1 /\
    phase_to_angle phase2 lam d = Some theta2 /\
    theta1 <= theta2.
Proof.
  intros Hl Hd H12.
  destruct (phase_to_angle_le Hl Hd H12)
    as [t1 [t2 [E1 [E2 [_ [Hle _]]]]]].
  exists t1, t2. repeat split; assumption.
Qed.

Lemma phase_to_angle_monotone_witness :
  exists theta1 theta2,
    phase_to_angle (-3) (1 / 8) (1 / 16) = Some theta1 /\
    phase_to_angle 5 (1 / 8) (1 / 16) = Some theta2 /\
    theta1 <= theta2.
Proof.
  apply (@phase_to_angle_monotone (-3) 5 (1 / 8) (1 / 16)); lra.
Defined.

End GeometryFacts.

Section AngleWidth.
Import BeamGeometry Lra.
Local Open Scope R_scope.
Variable p : Params.
Hypothesis c_positive : (0 < c_light p)%Q.
Hypothesis fc_positive : (0 < fc p)%Q.
Hypothesis ratio_positive : (0 < spacing_ratio p)%Q.

Lemma Q2R_positive (q : Q) : (0 < q)%Q -> 0 < Q2R q.
Proof.
  intro H. apply Qlt_Rlt in H.
  replace (Q2R 0) with 0 in H by (unfold Q2R; simpl; lra). exact H.
Qed.

Lemma lam_positive : 0 < Q2R (lam p).
Proof.
  apply Q2R_positive. unfold lam, Qdiv.
  apply Qmult_lt_0_compat; [exact c_positive|].
  apply Qinv_lt_0_compat. exact fc_positive.
Qed.

Lemma d_positive : 0 < Q2R (d p).
Proof.
  unfold d. rewrite Q2R_mult.
  apply Rmult_lt_0_compat; [apply Q2R_positive; exact ratio_positive|].
  exact lam_positive.
Qed.



(** For crossings with [left <= right] both angles are defined, and the
    angular width [theta_r - theta_l] lies between 0 and 180 degrees. *)
Theorem angular_width_in_range (cr : Hpbw.Crossings) :
  (Hpbw.left cr <= Hpbw.right cr)%Q ->
  exists tl tr,
    Annotate.theta_l (Annotate.spatial p cr) = Some tl /\
    Annotate.theta_r (Annotate.spatial p cr) = Some tr /\
    Annotate.hpbw_theta (Annotate.spatial p cr) = Some (tr - tl) /\
    0 <= tr - tl <= 180.
Proof.
  intro H. apply Qle_Rle in H.
  destruct (phase_to_angle_le lam_positive d_positive H)
    as [tl [tr [El [Er [Hlo [Hle Hhi]]]]]].
  exists tl, tr. unfold Annotate.spatial.
  cbn [Annotate.theta_l Annotate.theta_r Annotate.hpbw_theta].
  rewrite El, Er. cbn [angle_diff].
  repeat split; try reflexivity; lra.
Qed.

End AngleWidth.


Lemma angular_width_in_range_witness :
  exists tl tr,
    Annotate.theta_l
      (Annotate.spatial script_params
         (Hpbw.mkCrossings 2 0 0 (-3) (-3) 5 8)) = Some tl /\
    Annotate.theta_r
      (Annotate.spatial script_params
         (Hpbw.mkCrossings 2 0 0 (-3) (-3) 5 8)) = Some tr /\
    Annotate.hpbw_theta
      (Annotate.spatial script_params
         (Hpbw.mkCrossings 2 0 0 (-3) (-3) 5 8)) = Some (tr - tl)%R /\
    (0 <= tr - tl <= 180)%R.
Proof.
  apply (@angular_width_in_range script_params); try reflexivity.
  simpl. discriminate.
Defined.

(** ** Steps, clicks and timers in any order *)

Section StepEffects.
Import Num Np Sweep Loop Lqa.
Local Open Scope Q_scope.
Context {Radio : Type} {port : RadioPort Radio} {np : NumPy}.
Variable p : Params.

(** On histories of equal length a step either raises before it records
    anything, or records its point and returns. *)
Lemma update_effect (st : State Radio) :
  length (ph_hist st) = length (amp_hist st) ->
  mode (snd (update p st)) = mode st /\
  (((exists e, fst (update p st) = Raise e /\
       (fst (acquire (cur_phase st) st) = Raise e \/
        exists samples, fst (acquire (cur_phase st) st) = Ok samples /\
                        Spectral.spectrum p samples = Raise e)) /\
    ph_hist (snd (update p st)) = ph_hist st /\
    amp_hist (snd (update p st)) = amp_hist st /\
    cur_phase (snd (update p st)) = cur_phase st /\
    gfx (snd (update p st)) = gfx st /\
    timers (snd (update p st)) = timers st) \/
   (fst (update p st) = Ok tt /\
    (exists a,
       ph_hist (snd (update p st)) = ph_hist st ++ [cur_phase st] /\
       amp_hist (snd (update p st)) = amp_hist st ++ [a]) /\
    cur_phase (snd (update p st)) = cur_phase st + phase_step p /\
    gfx (snd (update p st))
    = (if Qltb (phase_stop p) (cur_phase st + phase_step p)
       then match Annotate.estimate p (ph_hist (snd (update p st)))
                    (amp_hist (snd (update p st))) with
            | Ok (Some s) =>
                Annotate.draw p s (amp_hist (snd (update p st)))
            | _ => gfx st
            end
       else gfx st))).
Proof.
  intro Hlen. rewrite update_unfold.
  destruct (radio_only_acquire (cur_phase st) st) as [Same _].
  destruct (acquire (cur_phase st) st) as [[samples|e] st1] eqn:Ea;
    simpl in Same; destruct Same as [Sc [Sp [Sa [Sm [Sg St]]]]].
  2:{ cbn [fst snd]. split; [exact Sm|]. left.
      split; [exists e; split; [reflexivity|left; reflexivity]|].
      repeat split; assumption. }
  destruct (Spectral.spectrum p samples) as [r|e] eqn:Es.
  2:{ cbn [fst snd]. split; [exact Sm|]. left.
      split; [exists e; split; [reflexivity|right; exists samples; split;
                                            [reflexivity|exact Es]]|].
      repeat split; assumption. }
  cbv zeta.
  set (a := 20 * np_log10 (snd r)).
  set (st2 := set_cur_phase _ _).
  assert (F : ph_hist st2 = ph_hist st ++ [cur_phase st] /\
              amp_hist st2 = amp_hist st ++ [a] /\
              cur_phase st2 = cur_phase st + phase_step p /\
              mode st2 = mode st /\ gfx st2 = gfx st).
  { subst st2. simpl. repeat split; congruence. }
  destruct F as [Fp [Fa [Fc [Fm Fg]]]].
  rewrite <- Fc.
  destruct (Qltb (phase_stop p) (cur_phase st2)).
  - unfold annotate_results.
    destruct (@estimate_ok p (ph_hist st2) (amp_hist st2)) as [res [Hres _]].
    { rewrite Fp, Fa, !length_app. simpl. lia. }
    rewrite Hres.
    destruct res as [s|].
    + assert (E : forall m' : Exc unit * State Radio,
                 m' = (Ok tt, set_gfx (Annotate.draw p s (amp_hist st2)) st2)
                 \/ m' = (Ok tt,
                          set_timers
                            (timers (set_gfx (Annotate.draw p s (amp_hist st2))
                                       st2)
                             ++ [(update_interval p, CbStartSweep)])
                            (set_gfx (Annotate.draw p s (amp_hist st2)) st2)) ->
                 fst m' = Ok tt /\ mode (snd m') = mode st /\
                 ph_hist (snd m') = ph_hist st2 /\
                 amp_hist (snd m') = amp_hist st2 /\
                 cur_phase (snd m') = cur_phase st2 /\
                 gfx (snd m') = Annotate.draw p s (amp_hist st2)).
      { intros m' [->| ->]; cbn; repeat split; assumption. }
      match goal with
      | |- context [match mode ?x with _ => _ end] =>
          destruct (E (match mode x with
                       | one_shot_mode => (Ok tt, x)
                       | continuous_mode =>
                           (Ok tt,
                            set_timers
                              (timers x ++ [(update_interval p, CbStartSweep)])
                              x)
                       end)) as [E1 [E2 [E3 [E4 [E5 E6]]]]]
      end.
      { cbn [mode set_gfx]. destruct (mode st2); [left|right]; reflexivity. }
      split; [exact E2|]. right. split; [exact E1|].
      split; [exists a; split; congruence|].
      split; [congruence|].
      rewrite E3, E4, Hres. exact E6.
    + assert (E : forall m' : Exc unit * State Radio,
                 m' = (Ok tt, st2)
                 \/ m' = (Ok tt,
                          set_timers
                            (timers st2
                             ++ [(update_interval p, CbStartSweep)]) st2) ->
                 fst m' = Ok tt /\ mode (snd m') = mode st /\
                 ph_hist (snd m') = ph_hist st2 /\
                 amp_hist (snd m') = amp_hist st2 /\
                 cur_phase (snd m') = cur_phase st2 /\
                 gfx (snd m') = gfx st).
      { intros m' [->| ->]; cbn; repeat split; assumption. }
      match goal with
      | |- context [match mode ?x with _ => _ end] =>
          destruct (E (match mode x with
                       | one_shot_mode => (Ok tt, x)
                       | continuous_mode =>
                           (Ok tt,
                            set_timers
                              (timers x ++ [(update_interval p, CbStartSweep)])
                              x)
                       end)) as [E1 [E2 [E3 [E4 [E5 E6]]]]]
      end.
      { destruct (mode st2); [left|right]; reflexivity. }
      split; [exact E2|]. right. split; [exact E1|].
      split; [exists a; split; congruence|].
      split; [congruence|].
      rewrite E3, E4, Hres. exact E6.
  - cbn [fst snd]. split; [exact Fm|]. right. split; [reflexivity|].
    split; [exists a; split; assumption|]. split; [reflexivity|]. exact Fg.
Qed.

Lemma curve_consistent_lengths (st : State Radio) :
  curve_consistent p st -> length (ph_hist st) = length (amp_hist st).
Proof.
  intros [k [Hp [Ha _]]]. rewrite Hp, Ha. apply sweep_phases_length.
Qed.

Lemma update_keeps_consistent (st : State Radio) :
  curve_consistent p st -> annotation_consistent st ->
  curve_consistent p (snd (update p st)) /\
  annotation_consistent (snd (update p st)).
Proof.
  intros Hc Hg. pose proof (curve_consistent_lengths Hc) as Hlen.
  destruct (update_effect st Hlen)
    as [_ [[_ [Up [Ua [Uc [Ug _]]]]]|[_ [[a [Up Ua]] [Uc Ug]]]]].
  - split.
    + destruct Hc as [k [Hp [Ha Hcur]]]. exists k.
      rewrite Up, Ua, Uc. repeat split; assumption.
    + unfold annotation_consistent. rewrite Ug, Ua. exact Hg.
  - split.
    + destruct Hc as [k [Hp [Ha Hcur]]]. exists (S k).
      rewrite Up, Ua, Uc, sweep_phases_S, length_app, Hp, Ha, Hcur.
      cbn [phase_at length]. repeat split. lia.
    + assert (Grow : annotation_consistent st ->
                     gfx (snd (update p st)) = gfx st ->
                     annotation_consistent (snd (update p st))).
      { unfold annotation_consistent. intros [U|[S5 L5]] E; rewrite E.
        - left. exact U.
        - right. split; [exact S5|]. rewrite Ua, length_app. lia. }
      destruct (Qltb (phase_stop p) (cur_phase st + phase_step p));
        [|exact (Grow Hg Ug)].
      destruct (@estimate_ok p (ph_hist (snd (update p st)))
                  (amp_hist (snd (update p st)))) as [res [Hres Hnone]].
      { rewrite Up, Ua, !length_app. simpl. lia. }
      rewrite Hres in Ug. destruct res as [s|]; [|exact (Grow Hg Ug)].
      right. rewrite Ug. split; [reflexivity|].
      destruct (Nat.lt_ge_cases (length (amp_hist (snd (update p st)))) 5)
        as [Lt|Ge]; [|exact Ge].
      apply Hnone in Lt. discriminate.
Qed.

Lemma start_sweep_consistent (st : State Radio) :
  curve_consistent p (snd (start_sweep p st)) /\
  annotation_consistent (snd (start_sweep p st)).
Proof.
  rewrite start_sweep_unfold. cbn [snd]. split.
  - exists 0%nat. repeat split.
  - left. reflexivity.
Qed.

Lemma reachable_any_inv (st : State Radio) :
  reachable_any p st -> curve_consistent p st /\ annotation_consistent st.
Proof.
  intro R. induction R as [r|st ev R [Hc Hg]].
  - split; [exists 0%nat; repeat split|left; reflexivity].
  - destruct ev as [| |i]; cbn [dispatch].
    + apply (start_sweep_consistent (set_mode one_shot_mode st)).
    + apply (start_sweep_consistent (set_mode continuous_mode st)).
    + unfold fire_nth.
      destruct (nth_error (timers st) i) as [[delay cb]|]; [|split; assumption].
      destruct cb.
      * apply update_keeps_consistent; assumption.
      * apply start_sweep_consistent.
Qed.

(** The states of the first-timer-first event loop are among those of the
    any-order one. *)
Lemma reachable_is_reachable_any (st : State Radio) :
  reachable p st -> reachable_any p st.
Proof.
  intro R. induction R as [r|st ev R IH]; [apply any_init|].
  destruct ev.
  - exact (any_event PressOneShot IH).
  - exact (any_event PressContinuous IH).
  - replace (snd (handle p TimerFires st))
      with (snd (dispatch p (Expire 0) st)); [exact (any_event (Expire 0) IH)|].
    cbn [handle dispatch]. unfold fire, fire_nth.
    destruct (timers st) as [|[delay cb] rest]; reflexivity.
Qed.

(** Whatever buttons are pressed and in whatever order pending timers fire,
    the recorded phases are always the first phases of one sweep from the
    start phase, in order, with as many amplitudes, and [cur_phase] is the
    phase the next step will use. *)
Theorem curve_always_consistent (st : State Radio) :
  reachable_any p st ->
  exists k,
    ph_hist st = sweep_phases p k /\ length (amp_hist st) = k /\
    cur_phase st = phase_at p k.
Proof. intro R. exact (proj1 (reachable_any_inv R)). Qed.

(** Whatever buttons are pressed and in whatever order pending timers fire,
    the five annotation handles are either all unset or all set, and they
    are set only while the curve has five points or more. *)
Theorem annotation_always_consistent (st : State Radio) :
  reachable_any p st ->
  all_unset (gfx st) = true \/
  (all_set (gfx st) = true /\ (5 <= length (amp_hist st))%nat).
Proof. intro R. exact (proj2 (reachable_any_inv R)). Qed.

(** On histories of equal length, a step that raises was stopped by the
    radio or by the spectral analysis, before anything was recorded: both
    histories, the phase, the annotation, the mode and the pending timers
    are as before (the annotation itself cannot raise). *)
Theorem step_that_raises_records_nothing
  (st st' : State Radio) (e : PyExc) :
  length (ph_hist st) = length (amp_hist st) ->
  update p st = (Raise e, st') ->
  (fst (acquire (cur_phase st) st) = Raise e \/
   exists samples, fst (acquire (cur_phase st) st) = Ok samples /\
                   Spectral.spectrum p samples = Raise e) /\
  ph_hist st' = ph_hist st /\ amp_hist st' = amp_hist st /\
  cur_phase st' = cur_phase st /\ gfx st' = gfx st /\
  mode st' = mode st /\ timers st' = timers st.
Proof.
  intros Hlen U.
  destruct (update_effect st Hlen)
    as [Um [[[e0 [He Hsrc]] [Up [Ua [Uc [Ug Ut]]]]]|[Hok _]]];
    rewrite U in *; cbn [fst snd] in *; [|discriminate].
  injection He as <-. repeat split; assumption.
Qed.

(** Pressing a button does not cancel a pending step: it adds one.  With
    two steps pending when the next phase is the last of a one-shot sweep,
    the first step ends the sweep and the second still runs, so a phase
    beyond the stop is transmitted and recorded. *)
Theorem second_pending_step_overshoots
  (st st' : State Radio) (d1 d2 : Z) :
  timers st = [(d1, CbUpdate); (d2, CbUpdate)] ->
  mode st = one_shot_mode -> 0 < phase_step p ->
  phase_stop p < cur_phase st + phase_step p ->
  run p 2 st = (Ok tt, st') ->
  (forall st0 : State Radio,
     timers (snd (one_shot p st0)) = timers st0 ++ [(0%Z, CbUpdate)]) /\
  ph_hist st'
  = ph_hist st ++ [cur_phase st; cur_phase st + phase_step p] /\
  timers st' = [] /\
  phase_stop p < last (ph_hist st') 0 /\
  radio_log st'
  = radio_log st ++ step_commands (cur_phase st)
    ++ step_commands (cur_phase st + phase_step p).
Proof.
  intros Ht Hm Hs Hlast Hrun.
  split; [reflexivity|].
  rewrite run_step in Hrun by (rewrite Ht; discriminate).
  unfold fire in Hrun at 1. rewrite Ht in Hrun.
  destruct (update p (set_timers [(d2, CbUpdate)] st))
    as [[[]|e] st1] eqn:U1; [|discriminate].
  destruct (update_ok p _ U1) as [a1 [P1 [A1 [C1 [M1 [L1 T1]]]]]].
  cbn [set_timers ph_hist amp_hist cur_phase mode timers radio_log] in *.
  unfold scheduled_after in T1.
  pose proof Hlast as B1. apply Qltb_lt in B1. rewrite B1, Hm in T1.
  cbn [app] in T1.
  rewrite run_step in Hrun by (rewrite T1; discriminate).
  unfold fire in Hrun. rewrite T1 in Hrun.
  destruct (update p (set_timers [] st1)) as [[[]|e] st2] eqn:U2;
    [|discriminate].
  cbn [run ret] in Hrun. injection Hrun as <-.
  destruct (update_ok p _ U2) as [a2 [P2 [A2 [C2 [M2 [L2 T2]]]]]].
  cbn [set_timers ph_hist amp_hist cur_phase mode timers radio_log] in *.
  unfold scheduled_after in T2.
  assert (B2 : Qltb (phase_stop p) (cur_phase st1 + phase_step p) = true)
    by (apply Qltb_lt; rewrite C1; lra).
  rewrite B2, M1, Hm in T2.
  assert (E : ph_hist st2
              = ph_hist st ++ [cur_phase st; cur_phase st + phase_step p]).
  { rewrite P2, P1, C1, <- app_assoc. reflexivity. }
  split; [exact E|]. split; [exact T2|]. split.
  - rewrite E.
    change [cur_phase st; cur_phase st + phase_step p]
      with ([cur_phase st] ++ [cur_phase st + phase_step p]).
    rewrite app_assoc, last_last. exact Hlast.
  - rewrite L2, L1, C1, <- app_assoc. reflexivity.
Qed.

End StepEffects.

Lemma curve_always_consistent_witness :
  exists k,
    ph_hist pressed_twice = Sweep.sweep_phases scenario1_params k /\
    length (amp_hist pressed_twice) = k /\
    cur_phase pressed_twice = Sweep.phase_at scenario1_params k.
Proof.
  apply (@curve_always_consistent Scripted scripted_port plain_numpy
           scenario1_params pressed_twice).
  unfold pressed_twice.
  repeat apply Loop.any_event. apply Loop.any_init.
Defined.

Lemma annotation_always_consistent_witness :
  all_unset (gfx pressed_twice) = true \/
  (all_set (gfx pressed_twice) = true /\
   (5 <= length (amp_hist pressed_twice))%nat).
Proof.
  apply (@annotation_always_consistent Scripted scripted_port plain_numpy
           scenario1_params pressed_twice).
  unfold pressed_twice.
  repeat apply Loop.any_event. apply Loop.any_init.
Defined.

Lemma step_that_raises_records_nothing_witness :
  (fst (Sweep.acquire (cur_phase (Sweep.set_timers [] failing_step))
          (Sweep.set_timers [] failing_step)) = Raise (RadioError 110) \/
   exists samples,
     fst (Sweep.acquire (cur_phase (Sweep.set_timers [] failing_step))
            (Sweep.set_timers [] failing_step)) = Ok samples /\
     Spectral.spectrum (np := plain_numpy) script_params samples
     = Raise (RadioError 110)) /\
  ph_hist (snd (Sweep.update (np := plain_numpy) script_params
                  (Sweep.set_timers [] failing_step)))
  = ph_hist (Sweep.set_timers [] failing_step) /\
  amp_hist (snd (Sweep.update (np := plain_numpy) script_params
                   (Sweep.set_timers [] failing_step)))
  = amp_hist (Sweep.set_timers [] failing_step) /\
  cur_phase (snd (Sweep.update (np := plain_numpy) script_params
                    (Sweep.set_timers [] failing_step)))
  = cur_phase (Sweep.set_timers [] failing_step) /\
  gfx (snd (Sweep.update (np := plain_numpy) script_params
              (Sweep.set_timers [] failing_step)))
  = gfx (Sweep.set_timers [] failing_step) /\
  mode (snd (Sweep.update (np := plain_numpy) script_params
               (Sweep.set_timers [] failing_step)))
  = mode (Sweep.set_timers [] failing_step) /\
  timers (snd (Sweep.update (np := plain_numpy) script_params
                 (Sweep.set_timers [] failing_step)))
  = timers (Sweep.set_timers [] failing_step).
Proof.
  apply (@step_that_raises_records_nothing Scripted scripted_port
           plain_numpy script_params (Sweep.set_timers [] failing_step)
           _ (RadioError 110)).
  - reflexivity.
  - vm_compute. reflexivity.
Defined.

Lemma second_pending_step_overshoots_witness :
  (forall st0 : State Scripted,
     timers (snd (Sweep.one_shot scenario1_params st0))
     = timers st0 ++ [(0%Z, CbUpdate)]) /\
  ph_hist (snd (Sweep.run (np := plain_numpy) scenario1_params 2
                  two_steps_pending))
  = ph_hist two_steps_pending
    ++ [cur_phase two_steps_pending;
        (cur_phase two_steps_pending + phase_step scenario1_params)%Q] /\
  timers (snd (Sweep.run (np := plain_numpy) scenario1_params 2
                 two_steps_pending)) = [] /\
  (phase_stop scenario1_params
   < last (ph_hist (snd (Sweep.run (np := plain_numpy) scenario1_params 2
                           two_steps_pending))) 0)%Q /\
  radio_log (snd (Sweep.run (np := plain_numpy) scenario1_params 2
                    two_steps_pending))
  = radio_log two_steps_pending
    ++ Sweep.step_commands (cur_phase two_steps_pending)
    ++ Sweep.step_commands
         (cur_phase two_steps_pending + phase_step scenario1_params)%Q.
Proof.
  apply (@second_pending_step_overshoots Scripted scripted_port plain_numpy
           scenario1_params two_steps_pending _ 40%Z 40%Z).
  - reflexivity.
  - reflexivity.
  - reflexivity.
  - reflexivity.
  - vm_compute. reflexivity.
Defined.

(** ** What a completed one-shot sweep leaves behind *)

Section SweepTrace.
Import Num Np Sweep Lqa.
Local Open Scope Q_scope.
Context {Radio : Type} {port : RadioPort Radio} {np : NumPy}.
Variable p : Params.



Lemma fire_sweeping_trace (k : nat) (st st' : State Radio) :
  sweeping p k st -> gfx st = no_graphics -> fire p st = (Ok tt, st') ->
  radio_log st' = radio_log st ++ step_commands (phase_at p k) /\
  gfx st'
  = (if Qltb (phase_stop p) (phase_at p (S k)) then annotation_of p st'
     else no_graphics).
Proof.
  intros [[delay Ht] [Hp [Ha Hc]]] Hg F.
  unfold fire in F. rewrite Ht in F.
  set (st0 := set_timers [] st) in *.
  assert (Hlen : length (ph_hist st0) = length (amp_hist st0)).
  { cbn. rewrite Hp, Ha. apply sweep_phases_length. }
  destruct (update_ok p _ F) as [a [_ [_ [_ [_ [Ul _]]]]]].
  cbn [st0 set_timers radio_log cur_phase] in Ul.
  split; [rewrite Ul, Hc; reflexivity|].
  destruct (update_effect p st0 Hlen) as [_ [[[e [He _]] _]|[_ [_ [_ Ug]]]]];
    rewrite F in *; cbn [fst snd] in *; [discriminate|].
  cbn [st0 set_timers gfx cur_phase] in Ug. rewrite Hg, Hc in Ug.
  rewrite Ug. cbn [phase_at].
  destruct (Qltb (phase_stop p) (phase_at p k + phase_step p));
    [|reflexivity].
  unfold annotation_of.
  destruct (Annotate.estimate p (ph_hist st') (amp_hist st')) as [[s|]|e];
    reflexivity.
Qed.

Lemma run_one_shot_trace (fuel : nat) :
  forall (k : nat) (st st' : State Radio),
    sweeping p k st -> mode st = one_shot_mode -> gfx st = no_graphics ->
    run p fuel st = (Ok tt, st') -> timers st' = [] ->
    exists n,
      (k < n)%nat /\ ph_hist st' = sweep_phases p n /\
      length (amp_hist st') = n /\
      radio_log st'
      = radio_log st
        ++ flat_map step_commands (map (phase_at p) (seq k (n - k))) /\
      gfx st' = annotation_of p st'.
Proof.
  induction fuel as [|fuel IH]; intros k st st' Sw Hm Hg Hrun Hidle.
  - cbn [run] in Hrun. unfold ret in Hrun. injection Hrun as <-.
    destruct Sw as [[delay Ht] _]. congruence.
  - pose proof Sw as [[delay Ht] _].
    rewrite run_step in Hrun by (rewrite Ht; discriminate).
    destruct (fire p st) as [[[]|e] st1] eqn:F; [|discriminate].
    destruct (fire_sweeping Sw F) as [Fm [Fp [Fa [Fc Ft]]]].
    destruct (fire_sweeping_trace Sw Hg F) as [Fl Fg].
    unfold scheduled_after in Ft. rewrite Hm in Ft.
    destruct (Qltb (phase_stop p) (phase_at p (S k))) eqn:Cmp.
    + rewrite (run_idle p fuel st1 Ft) in Hrun. injection Hrun as <-.
      exists (S k). split; [lia|]. split; [exact Fp|]. split; [exact Fa|].
      split; [|exact Fg].
      replace (S k - k)%nat with 1%nat by lia.
      cbn [seq map flat_map]. rewrite app_nil_r. exact Fl.
    + destruct (IH (S k) st1 st') as [n [Hkn [Hp [Ha [Hl Hgf]]]]];
        try assumption.
      * split; [eexists; exact Ft|]. repeat split; assumption.
      * congruence.
      * exists n. split; [lia|]. split; [exact Hp|]. split; [exact Ha|].
        split; [|exact Hgf].
        rewrite Hl, Fl, <- app_assoc. f_equal.
        replace (n - k)%nat with (S (n - S k)) by lia.
        reflexivity.
Qed.

Lemma sweep_once_trace (st : State Radio) (fuel : nat) :
  timers st = [] ->
  fst (sweep_once p fuel st) = Ok tt ->
  timers (snd (sweep_once p fuel st)) = [] ->
  exists n,
    (0 < n)%nat /\ ph_hist (snd (sweep_once p fuel st)) = sweep_phases p n /\
    length (amp_hist (snd (sweep_once p fuel st))) = n /\
    radio_log (snd (sweep_once p fuel st))
    = radio_log st
      ++ flat_map step_commands (ph_hist (snd (sweep_once p fuel st))) /\
    gfx (snd (sweep_once p fuel st))
    = annotation_of p (snd (sweep_once p fuel st)).
Proof.
  intros Ht Hok Hidle. unfold sweep_once in *.
  set (st0 := snd (one_shot p st)) in *.
  assert (Sw : sweeping p 0 st0).
  { subst st0. unfold one_shot, start_sweep, singleShot. cbn.
    rewrite Ht. split; [eexists; reflexivity|]. repeat split. }
  destruct (run p fuel st0) as [[[]|e] st'] eqn:Hrun; cbn [fst snd] in *;
    [|discriminate].
  destruct (@run_one_shot_trace fuel 0%nat st0 st' Sw eq_refl eq_refl
              Hrun Hidle) as [n [Hn [Hp [Ha [Hl Hg]]]]].
  exists n. split; [exact Hn|]. split; [exact Hp|]. split; [exact Ha|].
  split; [|exact Hg].
  rewrite Hl, Hp, Nat.sub_0_r. reflexivity.
Qed.




(** After a completed one-shot sweep the annotation shown is the one
    computed from the whole recorded curve: none below five points, all five
    items from five points on. *)
Theorem one_shot_sweep_annotation (st : State Radio) (fuel : nat) :
  timers st = [] ->
  fst (sweep_once p fuel st) = Ok tt ->
  timers (snd (sweep_once p fuel st)) = [] ->
  gfx (snd (sweep_once p fuel st))
  = annotation_of p (snd (sweep_once p fuel st)) /\
  ((length (amp_hist (snd (sweep_once p fuel st))) < 5)%nat ->
   gfx (snd (sweep_once p fuel st)) = no_graphics) /\
  ((5 <= length (amp_hist (snd (sweep_once p fuel st))))%nat ->
   exists s,
     Annotate.estimate p (ph_hist (snd (sweep_once p fuel st)))
       (amp_hist (snd (sweep_once p fuel st))) = Ok (Some s) /\
     gfx (snd (sweep_once p fuel st))
     = Annotate.draw p s (amp_hist (snd (sweep_once p fuel st)))).
Proof.
  intros Ht Hok Hidle.
  destruct (sweep_once_trace st fuel Ht Hok Hidle)
    as [n [_ [Hp [Ha [_ Hg]]]]].
  split; [exact Hg|].
  destruct (@estimate_ok p (ph_hist (snd (sweep_once p fuel st)))
              (amp_hist (snd (sweep_once p fuel st)))) as [res [Hres Hnone]].
  { rewrite Hp, Ha. apply sweep_phases_length. }
  rewrite Hg. unfold annotation_of. rewrite Hres. split.
  - intro Lt. apply Hnone in Lt. rewrite Lt. reflexivity.
  - intro Ge. destruct res as [s|].
    + exists s. split; reflexivity.
    + assert (L : (length (amp_hist (snd (sweep_once p fuel st))) < 5)%nat)
        by (apply Hnone; reflexivity).
      lia.
Qed.

End SweepTrace.


(** On the recording radio the device itself has, after the script's own
    sweep, 181 transmissions on record, whose offsets are the recorded
    phases in order, and 22 reads for each. *)
Example script_sweep_on_record :
  transmissions (radio recording_script_end) = ph_hist recording_script_end /\
  length (ph_hist recording_script_end) = 181%nat /\
  rx_count (radio recording_script_end) = (22 * 181)%nat.
Proof.
  split; [vm_compute; reflexivity|].
  split; vm_compute; reflexivity.
Qed.

Lemma one_shot_sweep_annotation_witness :
  gfx seven_point_end = annotation_of seven_point_params seven_point_end /\
  ((length (amp_hist seven_point_end) < 5)%nat ->
   gfx seven_point_end = no_graphics) /\
  ((5 <= length (amp_hist seven_point_end))%nat ->
   exists s,
     Annotate.estimate seven_point_params (ph_hist seven_point_end)
       (amp_hist seven_point_end) = Ok (Some s) /\
     gfx seven_point_end
     = Annotate.draw seven_point_params s (amp_hist seven_point_end)).
Proof.
  apply (@one_shot_sweep_annotation Scripted scripted_port plain_numpy
           seven_point_params seven_point_start 10).
  - reflexivity.
  - vm_compute. reflexivity.
  - vm_compute. reflexivity.
Defined.

(** The seven-point sweep does reach the annotated case. *)
Example seven_point_sweep_is_annotated :
  length (amp_hist seven_point_end) = 7%nat.
Proof. vm_compute. reflexivity. Qed.

(** ** The capture read by a step, on a scripted receiver *)

Section ScriptedAcquire.
Import Num Np Sweep.

Lemma flush_scripted (n : nat) :
  forall (flushed : list (list C)) (rest : Scripted) (st : State Scripted),
    length flushed = n -> radio st = map Ok flushed ++ rest ->
    exists st',
      flush n st = (Ok tt, st') /\ radio st' = rest /\
      ph_hist st' = ph_hist st /\ amp_hist st' = amp_hist st.
Proof.
  induction n as [|n IH]; intros flushed rest st Hlen Hr.
  - destruct flushed; [|discriminate]. exists st. repeat split. exact Hr.
  - destruct flushed as [|c flushed]; [discriminate|].
    injection Hlen as Hlen. cbn [flush]. unfold bind, sdr_rx, call.
    rewrite Hr. cbn [map app rx scripted_port].
    destruct (IH flushed rest
                (set_radio (map Ok flushed ++ rest)
                           (radio_log st ++ [CmdRx]) st) Hlen eq_refl)
      as [st' [F [R [P A]]]].
    exists st'. split; [exact F|]. split; [exact R|]. split; assumption.
Qed.

(** The 20 flushed captures play no part: whatever they are, the block a
    step hands on is the capture read after them, minus the mean of the
    capture read next, divided by 2048; the receiver is left with what
    follows these 22 captures, and the histories are untouched. *)
Theorem flushed_captures_are_discarded
  (st : State Scripted) (flushed : list (list C)) (a b : list C)
  (rest : Scripted) (phase : Q) :
  length flushed = 20%nat ->
  radio st = map Ok flushed ++ Ok a :: Ok b :: rest ->
  exists st',
    acquire phase st
    = (Ok (map (fun z => Cdivq (Csub z (Cmean b)) (2 ^ 11)) a), st') /\
    radio st' = rest /\
    ph_hist st' = ph_hist st /\ amp_hist st' = amp_hist st.
Proof.
  intros Hlen Hr. unfold acquire.
  unfold bind at 1, sdr_tx_destroy_buffer, call at 1.
  cbn [tx_destroy_buffer scripted_port].
  unfold bind at 1, sdr_tx, call at 1. cbn [tx scripted_port radio set_radio].
  unfold bind at 1.
  match goal with
  | |- context [flush 20 ?s] =>
      destruct (@flush_scripted 20 flushed (Ok a :: Ok b :: rest) s Hlen Hr)
        as [st1 [F [R1 [P1 A1]]]]
  end.
  rewrite F.
  unfold bind, sdr_rx, call. rewrite R1. cbn [rx scripted_port radio set_radio].
  eexists. split; [unfold ret; rewrite map_map; reflexivity|].
  cbn. repeat split; assumption.
Qed.

Lemma flushed_captures_are_discarded_witness :
  exists st',
    acquire 0 flushed_then_two
    = (Ok (map (fun z => Cdivq (Csub z (Cmean capture_high)) (2 ^ 11))
               capture_low), st') /\
    radio st' = [] /\
    ph_hist st' = ph_hist flushed_then_two /\
    amp_hist st' = amp_hist flushed_then_two.
Proof.
  apply (@flushed_captures_are_discarded flushed_then_two
           (repeat [(7, 7)]%Q 20) capture_low capture_high [] 0%Q);
    reflexivity.
Defined.

End ScriptedAcquire.

(** ** Switching on the DC offset tracking (lines 52-58) *)

Section DcTrackingFacts.
Import String DcTracking.
Local Open Scope string_scope.

Lemma lookup_cons (key k v : String.string) (rest : Attrs) :
  lookup key ((k, v) :: rest)
  = if String.eqb k key then Some v else lookup key rest.
Proof.
  unfold lookup. cbn [find fst]. destruct (String.eqb k key); reflexivity.
Qed.

Lemma set_value_none (key v : String.string) (attrs : Attrs) :
  set_value key v attrs = None <-> lookup key attrs = None.
Proof.
  induction attrs as [|[k old] rest IH]; [split; reflexivity|].
  cbn [set_value]. rewrite lookup_cons.
  destruct (String.eqb k key); [split; discriminate|].
  destruct (set_value key v rest); cbn [option_map].
  - split; [discriminate|]. intro H. apply IH in H. discriminate.
  - split; [|reflexivity]. intros _. apply IH. reflexivity.
Qed.

Lemma set_value_some (key v : String.string) (attrs attrs' : Attrs) :
  set_value key v attrs = Some attrs' ->
  map fst attrs' = map fst attrs /\
  lookup key attrs' = Some v /\
  forall k, k <> key -> lookup k attrs' = lookup k attrs.
Proof.
  revert attrs'. induction attrs as [|[k0 old] rest IH]; intros attrs' H;
    [discriminate|].
  cbn [set_value] in H. destruct (String.eqb k0 key) eqn:E.
  - injection H as <-. apply String.eqb_eq in E. subst k0.
    split; [reflexivity|]. split.
    + rewrite lookup_cons, String.eqb_refl. reflexivity.
    + intros k Hk. rewrite !lookup_cons.
      destruct (String.eqb key k) eqn:E'; [|reflexivity].
      apply String.eqb_eq in E'. congruence.
  - destruct (set_value key v rest) as [rest'|]; [|discriminate].
    injection H as <-. destruct (IH rest' eq_refl) as [Hk [Hv Ho]].
    split; [cbn [map fst]; rewrite Hk; reflexivity|]. split.
    + rewrite lookup_cons, E. exact Hv.
    + intros k Hne. rewrite !lookup_cons.
      destruct (String.eqb k0 k); [reflexivity|]. apply Ho. exact Hne.
Qed.

(** The radio-frequency attribute is preferred, the baseband one is the
    fallback, and the message is printed only when the device has neither;
    in every case no [KeyError] escapes, the device keeps the same attribute
    names, and at most the one attribute that was switched on has changed. *)
Theorem dc_tracking_falls_back (attrs : Attrs) :
  map fst (fst (enable_dc_tracking attrs)) = map fst attrs /\
  (snd (enable_dc_tracking attrs) = true <->
   lookup rf_key attrs = None /\ lookup bb_key attrs = None) /\
  (snd (enable_dc_tracking attrs) = true ->
   fst (enable_dc_tracking attrs) = attrs) /\
  (lookup rf_key attrs <> None ->
   lookup rf_key (fst (enable_dc_tracking attrs)) = Some "1"%string /\
   forall k, k <> rf_key ->
     lookup k (fst (enable_dc_tracking attrs)) = lookup k attrs) /\
  (lookup rf_key attrs = None -> lookup bb_key attrs <> None ->
   lookup bb_key (fst (enable_dc_tracking attrs)) = Some "1"%string /\
   forall k, k <> bb_key ->
     lookup k (fst (enable_dc_tracking attrs)) = lookup k attrs).
Proof.
  unfold enable_dc_tracking.
  destruct (set_value rf_key "1" attrs) as [a1|] eqn:E1.
  - destruct (set_value_some _ _ _ E1) as [Hk [Hv Ho]].
    assert (N : lookup rf_key attrs <> None).
    { intro H. apply (set_value_none rf_key "1"%string) in H. congruence. }
    cbn [fst snd]. split; [exact Hk|].
    split; [split; [discriminate|intros [H _]; contradiction]|].
    split; [discriminate|].
    split; [intros _; split; assumption|].
    intros H. contradiction.
  - pose proof E1 as L1. apply set_value_none in L1.
    destruct (set_value bb_key "1" attrs) as [a2|] eqn:E2.
    + destruct (set_value_some _ _ _ E2) as [Hk [Hv Ho]].
      assert (N : lookup bb_key attrs <> None).
      { intro H. apply (set_value_none bb_key "1"%string) in H. congruence. }
      cbn [fst snd]. split; [exact Hk|].
      split; [split; [discriminate|intros [_ H]; contradiction]|].
      split; [discriminate|].
      split; [intro H; contradiction|].
      intros _ _. split; assumption.
    + pose proof E2 as L2. apply set_value_none in L2.
      cbn [fst snd]. split; [reflexivity|].
      split; [split; [intros _; split; assumption|reflexivity]|].
      split; [reflexivity|].
      split; [intro H; contradiction|].
      intros _ H. contradiction.
Qed.

(** A device with the baseband attribute only gets that one switched on,
    with no message. *)
Example dc_tracking_baseband_only :
  enable_dc_tracking baseband_only
  = ([("gain_control_mode", "manual"); (bb_key, "1")]%string, false).
Proof. reflexivity. Qed.

End DcTrackingFacts.

(** ** The marker of the maximum (lines 164-170) *)

Section MarkerFacts.
Import Num Np Hpbw Lqa.
Local Open Scope Q_scope.

Lemma fold_minimum_bound (l : list Q) :
  forall x,
    fold_left (fun m y => if Qltb y m then y else m) l x <= x /\
    forall y, In y l ->
      fold_left (fun m y => if Qltb y m then y else m) l x <= y.
Proof.
  induction l as [|z l IH]; intro x; cbn [fold_left].
  - split; [lra|]. intros y [].
  - destruct (Qltb z x) eqn:E.
    + apply Qltb_lt in E. destruct (IH z) as [Hz Hl].
      split; [lra|]. intros y [->|Hy]; [exact Hz|apply Hl; exact Hy].
    + apply Qltb_ge in E. destruct (IH x) as [Hx Hl].
      split; [exact Hx|]. intros y [<-|Hy]; [lra|apply Hl; exact Hy].
Qed.

Lemma Qminimum_bound (dflt : Q) (l : list Q) (j : nat) :
  (j < length l)%nat -> Qminimum dflt l <= nth j l 0.
Proof.
  intro Hj. destruct l as [|x l]; [simpl in Hj; lia|].
  unfold Qminimum. destruct (fold_minimum_bound l x) as [Hx Hl].
  destruct j as [|j]; [exact Hx|].
  cbn [nth]. apply Hl. apply nth_In. simpl in Hj. lia.
Qed.

(** With five samples or more the vertical line and the marker of the
    maximum stand at the peak phase; the line runs from the lowest recorded
    amplitude up to the peak amplitude, and every recorded amplitude lies
    between the two. *)
Theorem marker_line_spans_curve (p : Params) (phases amps : list Q) :
  length phases = length amps -> (5 <= length amps)%nat ->
  exists s m,
    Annotate.estimate p phases amps = Ok (Some s) /\
    max_line (Annotate.draw p s amps)
    = Some (PlotLine [peak_phi (Annotate.cross s); peak_phi (Annotate.cross s)]
                     [m; peak_db (Annotate.cross s)]) /\
    max_marker (Annotate.draw p s amps)
    = Some (Marker (peak_phi (Annotate.cross s))
                   (peak_db (Annotate.cross s))) /\
    peak_phi (Annotate.cross s) = nth (idx_max (Annotate.cross s)) phases 0 /\
    forall j, (j < length amps)%nat ->
      m <= nth j amps 0 /\ nth j amps 0 <= peak_db (Annotate.cross s).
Proof.
  intros Hlen H5.
  destruct (@crossings_computed phases amps Hlen H5)
    as [im [l [r [Him [Ham [Hc _]]]]]].
  destruct (argmax_first_max amps Ham) as [Hmax _].
  unfold Annotate.estimate. rewrite Hc. cbn [ebind option_map].
  eexists. exists (Qminimum 0 amps). split; [reflexivity|].
  cbn. split; [reflexivity|]. split; [reflexivity|]. split; [reflexivity|].
  intros j Hj. split; [apply Qminimum_bound; exact Hj|apply Hmax; exact Hj].
Qed.

Lemma marker_line_spans_curve_witness :
  exists s m,
    Annotate.estimate script_params scenario2_phases scenario2_amps
    = Ok (Some s) /\
    max_line (Annotate.draw script_params s scenario2_amps)
    = Some (PlotLine [peak_phi (Annotate.cross s); peak_phi (Annotate.cross s)]
                     [m; peak_db (Annotate.cross s)]) /\
    max_marker (Annotate.draw script_params s scenario2_amps)
    = Some (Marker (peak_phi (Annotate.cross s))
                   (peak_db (Annotate.cross s))) /\
    peak_phi (Annotate.cross s)
    = nth (idx_max (Annotate.cross s)) scenario2_phases 0 /\
    forall j, (j < length scenario2_amps)%nat ->
      m <= nth j scenario2_amps 0 /\
      nth j scenario2_amps 0 <= peak_db (Annotate.cross s).
Proof.
  apply (@marker_line_spans_curve script_params scenario2_phases
           scenario2_amps).
  - reflexivity.
  - simpl. lia.
Defined.

End MarkerFacts.
